(** * autoplex: structure sampling, selection and supercell search

    A shallow embedding of the numerical core of
    [autoplex/data/common/utils.py] and [autoplex/data/phonons/utils.py].

    Conventions.
    - Python floats are idealised as exact rationals ([Q]); equalities of
      computed numbers are stated with [==] ([Qeq]).
    - Python exceptions are values of [exn]; a function that can raise
      returns [res A].
    - Calls into external libraries (pymatgen, ase, numpy's random
      generator, scipy's svds, quippy) are Section variables: the
      development holds for every behaviour of the library that the
      stated hypotheses allow. *)

From stdpp Require Import gmap strings list sorting.
From Stdlib Require Import QArith Qround Qfield Lia Lqa Ascii.

Open Scope Z_scope.

(** ** Exceptions and results *)

Inductive exn : Type :=
  | IndexError
  | KeyError (key : string)
  | KeyErrorNum (key : Z)
  | AttributeError
  | TypeError
  | ValueError
  | LinAlgError
  | ZeroDivisionError
  | RuntimeError (msg : string).

Definition res (A : Type) : Type := exn + A.

Definition raise {A : Type} (e : exn) : res A := inl e.
Definition ret {A : Type} (a : A) : res A := inr a.

Definition bind {A B : Type} (m : res A) (k : A → res B) : res B :=
  match m with
  | inl e => inl e
  | inr a => k a
  end.

Notation "'let*' x ':=' m 'in' k" := (bind m (fun x => k))
  (at level 10, x name, m at level 100, k at level 200).
Notation "'let*' ' pat ':=' m 'in' k" := (bind m (fun pat => k))
  (at level 10, pat strict pattern, m at level 100, k at level 200).

(** [traverse f l]: the list comprehension [[f(x) for x in l]], stopping at
    the first exception. *)
Fixpoint traverse {A B : Type} (f : A → res B) (l : list A) : res (list B) :=
  match l with
  | [] => ret []
  | x :: l' => let* y := f x in let* ys := traverse f l' in ret (y :: ys)
  end.

(** [l[i]] for a non-negative index. *)
Definition index {A : Type} (l : list A) (i : nat) : res A :=
  match l !! i with
  | Some x => ret x
  | None => raise IndexError
  end.

(** ** Supercell-size search ([autoplex/data/phonons/utils.py]) *)

Module Supercell.

(** A 3x3 matrix as the nested list [tolist()] produces: three rows. *)
Definition row3 : Type := Z * Z * Z.
Definition Matrix3D : Type := row3 * row3 * row3.

Definition transpose (m : Matrix3D) : Matrix3D :=
  let '((a11, a12, a13), (a21, a22, a23), (a31, a32, a33)) := m in
  ((a11, a21, a31), (a12, a22, a32), (a13, a23, a33)).

(** Keyword arguments of pymatgen's [CubicSupercellTransformation]. *)
Record cubic_args : Type := CubicArgs {
  ca_min_length : Z;
  ca_max_length : Q;
  ca_min_atoms : Z;
  ca_max_atoms : Z;
  ca_step_size : Q;
  ca_allow_orthorhombic : bool;
  ca_force_90_degrees : bool
}.

(** [range(start, stop, -1)]: start, start-1, ..., stop+1. *)
Definition range_down (start stop : Z) : list Z :=
  map (fun k : nat => start - Z.of_nat k) (seq 0 (Z.to_nat (start - stop))).

(** What one iteration of a [for] body does: return from the function, or
    fall through to the next iteration. *)
Inductive flow (A : Type) : Type :=
  | Return (a : A)
  | Next.
Arguments Return {A} a.
Arguments Next {A}.

(** A [for] loop whose body may return; [None] is Python's [None], the
    value of a function whose loop ends without a [return]. *)
Fixpoint for_loop {A : Type} (body : Z → flow A) (trials : list Z) : option A :=
  match trials with
  | [] => None
  | minimum :: rest =>
      match body minimum with
      | Return a => Some a
      | Next => for_loop body rest
      end
  end.

Section Search.

Variable Structure : Type.

(** [structure.lattice.abc]: the three lattice-vector lengths. *)
Variable abc : Structure → Q * Q * Q.

(** [CubicSupercellTransformation(...)] with the given keyword arguments, followed by
    [apply_transformation(structure)]: [None] when pymatgen raises
    [AttributeError], otherwise the transformation matrix and
    [new_structure.num_sites]. *)
Variable cubic_supercell : cubic_args → Structure → option (Matrix3D * Z).

Section Params.

Variable structure : Structure.
Variables (min_length : Z) (max_length : Q) (fallback_min_length : Z).
Variables (min_atoms max_atoms : Z) (step_size : Q).

(** One [try] block: the search, the atom-count test, and
    [raise AttributeError] when the test fails.  [None] is the
    [AttributeError] the enclosing [except] catches. *)
Definition attempt (minimum : Z) (orth f90 : bool) : option Matrix3D :=
  match cubic_supercell
          (CubicArgs minimum max_length min_atoms max_atoms step_size orth f90)
          structure with
  | Some (tm, num_sites) =>
      if (min_atoms <=? num_sites) && (num_sites <=? max_atoms)
      then Some (transpose tm)
      else None
  | None => None
  end.

(** The three nested [try]/[except AttributeError] blocks. *)
Definition tiers (minimum : Z) : option Matrix3D :=
  match attempt minimum true true with
  | Some m => Some m
  | None =>
      match attempt minimum true false with
      | Some m => Some m
      | None => attempt minimum false false
      end
  end.

(** [np.max((np.floor(max_length / x), 1))]. *)
Definition factor (x : Q) : Z := Z.max (Qfloor (max_length / x)) 1.

Definition diagonal_fallback : Matrix3D :=
  let '(a, b, c) := abc structure in
  transpose ((factor a, 0, 0), (0, factor b, 0), (0, 0, factor c)).

(** The body of [for minimum in range(min_length, fallback_min_length, -1)].
    The fallback block and its [return] are indented inside the loop,
    so no path through the body reaches the next iteration. *)
Definition loop_body (minimum : Z) : flow Matrix3D :=
  match tiers minimum with
  | Some m => Return m
  | None => Return diagonal_fallback
  end.

Definition reduce_supercell_size : option Matrix3D :=
  for_loop loop_body (range_down min_length fallback_min_length).

(** The trial lengths at which the tiered search has been run when the
    function returns. *)
Fixpoint trials_run (trials : list Z) : list Z :=
  match trials with
  | [] => []
  | minimum :: rest =>
      match loop_body minimum with
      | Return _ => [minimum]
      | Next => minimum :: trials_run rest
      end
  end.

End Params.
End Search.

Arguments attempt {Structure}.
Arguments tiers {Structure}.
Arguments diagonal_fallback {Structure}.
Arguments loop_body {Structure}.
Arguments reduce_supercell_size {Structure}.
Arguments trials_run {Structure}.

End Supercell.

(** ** Geometry perturbation ([autoplex/data/common/utils.py]) *)

Module Geometry.

Open Scope Q_scope.

(** The ase/pymatgen operations [scale_cell] goes through.  Values are
    immutable here, so [atoms.copy()] is the identity. *)
Class CellBackend : Type := {
  Structure : Type;
  Atoms : Type;
  Cell : Type;
  (** [AseAtomsAdaptor.get_atoms(structure)] *)
  get_atoms : Structure → Atoms;
  (** [AseAtomsAdaptor.get_structure(atoms)] *)
  get_structure : Atoms → res Structure;
  (** [atoms.get_cell()] *)
  get_cell : Atoms → Cell;
  (** [factor * cell] *)
  cell_mul : Q → Cell → Cell;
  (** [atoms.set_cell(cell, scale_atoms=True)] *)
  set_cell : Atoms → Cell → res Atoms
}.

(** The further operations [random_vary_angle] and [check_distances] use. *)
Class AngleBackend (B : CellBackend) : Type := {
  (** [cell.cellpar()]: the array [a, b, c, alpha, beta, gamma] *)
  cellpar : Cell → list Q;
  (** [atoms.set_cell(newcell, scale_atoms=True)] with six cell parameters *)
  set_cellpar : Atoms → list Q → res Atoms;
  (** [len(atoms)] *)
  num_atoms : Atoms → nat;
  (** [atoms.get_distances(i, indices, mic=True)] for a non-empty [indices] *)
  get_distances : Atoms → nat → list nat → list Q
}.

(** [int(x)] on a float: truncation towards zero. *)
Definition py_int (x : Q) : Z :=
  if Qle_bool 0 x then Qfloor x else Qceiling x.

(** [x in xs] on an array of numbers. *)
Definition Qmem (x : Q) (xs : list Q) : bool := existsb (Qeq_bool x) xs.

Fixpoint Qinsert (x : Q) (xs : list Q) : list Q :=
  match xs with
  | [] => [x]
  | y :: ys => if Qle_bool x y then x :: y :: ys else y :: Qinsert x ys
  end.

(** [np.sort] *)
Definition Qsort (xs : list Q) : list Q := foldr Qinsert [] xs.

Definition default_scale_factors : list Q :=
  [90 # 100; 95 # 100; 98 # 100; 99 # 100; 101 # 100; 102 # 100; 105 # 100; 110 # 100].

Section ScaleCell.

Context {B : CellBackend}.

(** [np.arange(start, stop, step)].  numpy works on doubles: whether the
    value next to [stop] is still returned depends on how
    [(stop - start) / step] rounds, so the array is taken as numpy gives
    it. *)
Variable np_arange : Q → Q → Q → res (list Q).

(** [x ** (1 / 3)] *)
Variable cbrt : Q → Q.

(** The scale factors [scale_cell] iterates over. *)
Definition scale_factors_defined
    (volume_scale_factor_range : option (list Q)) (n_structures : Z)
    (volume_custom_scale_factors : option (list Q)) : res (list Q) :=
  match volume_scale_factor_range with
  | Some range =>
      let* lo := index range 0 in
      let* hi := index range 1 in
      if (n_structures - 1 =? 0)%Z then raise ZeroDivisionError else
      let step := (hi - lo) / inject_Z (n_structures - 1) in
      let* factors := np_arange lo (hi + step) step in
      if Qmem 1 factors then ret factors else ret (Qsort (factors ++ [1]))
  | None =>
      match volume_custom_scale_factors with
      | None => ret default_scale_factors
      | Some custom => ret custom
      end
  end.

Definition scale_cell (structure : Structure)
    (volume_scale_factor_range : option (list Q)) (n_structures : Z)
    (volume_custom_scale_factors : option (list Q)) : res (list Structure) :=
  let atoms := get_atoms structure in
  let* factors := scale_factors_defined volume_scale_factor_range n_structures
                    volume_custom_scale_factors in
  traverse
    (fun scale_factor =>
       let lattice_scale_factor := cbrt scale_factor in
       let* cell := set_cell atoms (cell_mul lattice_scale_factor (get_cell atoms)) in
       get_structure cell)
    factors.

End ScaleCell.

(** *** [check_distances] and [random_vary_angle] *)

Section Angles.

Context {B : CellBackend} {A : AngleBackend B}.

Variable np_arange : Q → Q → Q → res (list Q).
Variable cbrt : Q → Q.

(** The state of Python's [random] module and [random.randint(a, b)] on
    it, for [a <= b]. *)
Variable rng : Type.
Variable randint : rng → Z → Z → Z * rng.

(** [random.randint(a, b)] raises [ValueError] on an empty range. *)
Definition py_randint (g : rng) (a b : Z) : res (Z * rng) :=
  if (b <? a)%Z then raise ValueError else ret (randint g a b).

(** [atoms.get_distances(i, indices, mic=True)] as [check_distances]
    calls it.  For an empty [indices] ase cannot give its result a shape
    and raises [ValueError]. *)
Definition distances_to (atoms : Atoms) (i : nat) (indices : list nat) : res (list Q) :=
  match indices with
  | [] => raise ValueError
  | _ :: _ => ret (get_distances atoms i indices)
  end.

(** [distance < min_distance] for one of the distances. *)
Definition too_close (min_distance : Q) (distances : list Q) : bool :=
  existsb (fun distance => negb (Qle_bool min_distance distance)) distances.

(** The loop of [check_distances] over the atoms still to visit. *)
Fixpoint check_from (atoms : Atoms) (min_distance : Q) (todo : list nat) : res bool :=
  match todo with
  | [] => ret true
  | i :: todo' =>
      let indices := filter (fun j : nat => j ≠ i) (seq 0 (num_atoms atoms)) in
      let* distances := distances_to atoms i indices in
      if too_close min_distance distances then ret false
      else check_from atoms min_distance todo'
  end.

Definition check_distances (structure : Structure) (min_distance : Q) : res bool :=
  let atoms := get_atoms structure in
  check_from atoms min_distance (seq 0 (num_atoms atoms)).

(** [for wang, newv in zip(w_angle, newvalues): newcell[wang + 3] = newv] *)
Fixpoint assign_angles (w_angle : list nat) (newvalues : list Z)
    (newcell : list Q) : res (list Q) :=
  match w_angle, newvalues with
  | wang :: w_rest, newv :: v_rest =>
      if decide (wang + 3 < length newcell)%nat
      then assign_angles w_rest v_rest (<[(wang + 3)%nat := inject_Z newv]> newcell)
      else raise IndexError
  | _, _ => ret newcell
  end.

Definition max_attempts_message : string :=
  "Maximum attempts (1000) reached without distorting angles successfully.".

Section Target.

Variables (min_distance : Q) (w_angle : list nat).
Variables (alpha beta gamma min_scale max_scale : Q).

(** The inner [while attempts < angle_max_attempts] loop with its
    [else] clause; the first argument counts the attempts left. *)
Fixpoint attempt_loop (attempts_left : nat) (atoms_copy : Atoms)
    (newcell : list Q) (g : rng) : res (Structure * rng) :=
  match attempts_left with
  | O => raise (RuntimeError max_attempts_message)
  | S attempts_left' =>
      let* '(new_alpha, g) :=
        py_randint g (py_int (alpha * min_scale)) (py_int (alpha * max_scale)) in
      let* '(new_beta, g) :=
        py_randint g (py_int (beta * min_scale)) (py_int (beta * max_scale)) in
      let* '(new_gamma, g) :=
        py_randint g (py_int (gamma * min_scale)) (py_int (gamma * max_scale)) in
      let newvalues := [new_alpha; new_beta; new_gamma] in
      let* newcell := assign_angles w_angle newvalues newcell in
      let* atoms_copy := set_cellpar atoms_copy newcell in
      let* candidate := get_structure atoms_copy in
      let* far_enough := check_distances candidate min_distance in
      if far_enough
      then ret (candidate, g)
      else attempt_loop attempts_left' atoms_copy newcell g
  end.

End Target.

Section Generate.

Variables (atoms : Atoms) (min_distance : Q) (w_angle : list nat).
Variable angle_max_attempts : Z.

(** The outer [while generated_structures < n_structures] loop; every
    pass either appends one structure or raises, so the first argument
    counts the structures still to generate.  [angle_percentage_scale]
    is the local variable the loop body reassigns. *)
Fixpoint generate (remaining : nat) (angle_percentage_scale : Q) (g : rng)
    : res (list Structure * rng) :=
  match remaining with
  | O => ret ([], g)
  | S remaining' =>
      let atoms_copy := atoms in
      let* unstretched := get_structure atoms_copy in
      let* distorted_cells :=
        scale_cell np_arange cbrt unstretched None 10 (Some [103 # 100]) in
      let* stretched := index distorted_cells 0 in
      let distorted_cells := get_atoms stretched in
      let newcell := cellpar (get_cell distorted_cells) in
      let* alpha := index (cellpar (get_cell atoms_copy)) 3 in
      let* beta := index (cellpar (get_cell atoms_copy)) 4 in
      let* gamma := index (cellpar (get_cell atoms_copy)) 5 in
      let angle_percentage_scale := angle_percentage_scale / 100 in
      let min_scale := 1 - angle_percentage_scale in
      let max_scale := 1 + angle_percentage_scale in
      let* '(accepted, g) :=
        attempt_loop min_distance w_angle alpha beta gamma min_scale max_scale
          (Z.to_nat angle_max_attempts) atoms_copy newcell g in
      let* '(rest, g) := generate remaining' angle_percentage_scale g in
      ret (accepted :: rest, g)
  end.

End Generate.

Definition random_vary_angle (structure : Structure) (min_distance : Q)
    (angle_percentage_scale : Q) (w_angle : option (list nat))
    (n_structures : Z) (angle_max_attempts : Z) (g : rng)
    : res (list Structure * rng) :=
  let atoms := get_atoms structure in
  let w_angle := match w_angle with None => [0; 1; 2]%nat | Some w => w end in
  generate atoms min_distance w_angle angle_max_attempts
    (Z.to_nat n_structures) angle_percentage_scale g.

End Angles.

Arguments py_randint {rng}.
Arguments attempt_loop {B A rng}.
Arguments generate {B A} np_arange cbrt {rng}.
Arguments random_vary_angle {B A} np_arange cbrt {rng}.

(** *** A backend in exact arithmetic

    Lattices are 3x3 matrices whose rows are the lattice vectors; a
    pymatgen structure stores fractional coordinates, ase atoms store
    Cartesian positions. *)

Definition vec3 : Type := Q * Q * Q.
Definition mat3 : Type := vec3 * vec3 * vec3.

Definition vec_add (u v : vec3) : vec3 :=
  let '(u1, u2, u3) := u in let '(v1, v2, v3) := v in (u1 + v1, u2 + v2, u3 + v3).

Definition vec_scale (k : Q) (v : vec3) : vec3 :=
  let '(v1, v2, v3) := v in (k * v1, k * v2, k * v3).

(** Row vector times matrix: [np.dot(v, m)]. *)
Definition vec_mat (v : vec3) (m : mat3) : vec3 :=
  let '(v1, v2, v3) := v in
  let '(r1, r2, r3) := m in
  vec_add (vec_scale v1 r1) (vec_add (vec_scale v2 r2) (vec_scale v3 r3)).

Definition mat_mul (a b : mat3) : mat3 :=
  let '(r1, r2, r3) := a in (vec_mat r1 b, vec_mat r2 b, vec_mat r3 b).

Definition mat_scale (k : Q) (m : mat3) : mat3 :=
  let '(r1, r2, r3) := m in (vec_scale k r1, vec_scale k r2, vec_scale k r3).

Definition det (m : mat3) : Q :=
  let '((a, b, c), (d, e, f), (g, h, i)) := m in
  a * (e * i - f * h) - b * (d * i - f * g) + c * (d * h - e * g).

(** The inverse by the adjugate; meaningful when [det m] is not zero. *)
Definition inv (m : mat3) : mat3 :=
  let '((a, b, c), (d, e, f), (g, h, i)) := m in
  let dt := det m in
  (((e * i - f * h) / dt, (c * h - b * i) / dt, (b * f - c * e) / dt),
   ((f * g - d * i) / dt, (a * i - c * g) / dt, (c * d - a * f) / dt),
   ((d * h - e * g) / dt, (b * g - a * h) / dt, (a * e - b * d) / dt)).

(** [np.linalg.inv] and [np.linalg.solve(a, b)]. *)
Definition linalg_inv (a : mat3) : res mat3 :=
  if Qeq_bool (det a) 0 then raise LinAlgError else ret (inv a).

Definition linalg_solve (a b : mat3) : res mat3 :=
  let* a_inv := linalg_inv a in ret (mat_mul a_inv b).

Record QStructure : Type := MkStructure {
  lattice : mat3;
  species : list string;
  frac_coords : list vec3
}.

Record QAtoms : Type := MkAtoms {
  cell : mat3;
  symbols : list string;
  positions : list vec3
}.

Definition Q_get_atoms (s : QStructure) : QAtoms :=
  MkAtoms (lattice s) (species s) (map (fun x => vec_mat x (lattice s)) (frac_coords s)).

(** [Structure(lattice, symbols, positions, coords_are_cartesian=True)] *)
Definition Q_get_structure (a : QAtoms) : res QStructure :=
  let* inv_matrix := linalg_inv (cell a) in
  ret (MkStructure (cell a) (symbols a) (map (fun p => vec_mat p inv_matrix) (positions a))).

(** ase: [M = np.linalg.solve(old_cell, new_cell); positions = positions @ M] *)
Definition Q_set_cell (a : QAtoms) (new_cell : mat3) : res QAtoms :=
  let* M := linalg_solve (cell a) new_cell in
  ret (MkAtoms new_cell (symbols a) (map (fun p => vec_mat p M) (positions a))).

#[export] Instance QBackend : CellBackend := {|
  Structure := QStructure;
  Atoms := QAtoms;
  Cell := mat3;
  get_atoms := Q_get_atoms;
  get_structure := Q_get_structure;
  get_cell := cell;
  cell_mul := mat_scale;
  set_cell := Q_set_cell
|}.

Definition vec_eq (u v : vec3) : Prop :=
  let '(u1, u2, u3) := u in let '(v1, v2, v3) := v in u1 == v1 ∧ u2 == v2 ∧ u3 == v3.

Definition mat_eq (a b : mat3) : Prop :=
  let '(a1, a2, a3) := a in let '(b1, b2, b3) := b in
  vec_eq a1 b1 ∧ vec_eq a2 b2 ∧ vec_eq a3 b3.

(** Two structures with the same lattice, species and fractional positions. *)
Definition same_structure (s t : QStructure) : Prop :=
  mat_eq (lattice s) (lattice t) ∧ species s = species t ∧
  Forall2 vec_eq (frac_coords s) (frac_coords t).

End Geometry.

(** ** Selection: CUR and Boltzmann flat-histogram sampling
    ([autoplex/data/common/utils.py]) *)

Module Selection.

Open Scope Q_scope.

(** An [ase.Atoms] object as the samplers see it.  [ident] is the identity
    of the Python object ([id(atoms)]): two entries of a pool are the same
    object exactly when they are equal as records. *)
Record Atoms : Type := MkAtoms {
  ident : nat;
  (** [get_atomic_numbers()]; [len(atoms)] is its length *)
  atomic_numbers : list Z;
  (** [get_volume()] *)
  volume : Q;
  (** the [info] dictionary, restricted to its numeric entries *)
  info : gmap string Q
}.

(** An entry of a pool: a configuration, or a nested list of entries. *)
Inductive item : Type :=
  | Config (a : Atoms)
  | Sub (l : list item).

(** [isinstance(x, list)] *)
Definition is_list (x : item) : bool :=
  match x with
  | Config _ => false
  | Sub _ => true
  end.

(** [flatten(atoms_object, recursive=True)]: descends into nested lists,
    never into an [Atoms] object. *)
Fixpoint flatten_item (x : item) : list item :=
  match x with
  | Config a => [Config a]
  | Sub l =>
      (fix go (l : list item) : list item :=
         match l with
         | [] => []
         | y :: rest => flatten_item y ++ go rest
         end) l
  end.

Definition flatten (atoms_object : list item) : list item :=
  flatten_item (Sub atoms_object).

(** Attribute access on a pool entry: a nested list has no [info],
    [get_atomic_numbers] or [get_volume]. *)
Definition as_atoms (x : item) : res Atoms :=
  match x with
  | Config a => ret a
  | Sub _ => raise AttributeError
  end.

(** [d[key]] on a dictionary with string keys. *)
Definition getitem (d : gmap string Q) (key : string) : res Q :=
  match d !! key with
  | Some v => ret v
  | None => raise (KeyError key)
  end.

(** [isol_es[j]]; subscripting the default [None] is a [TypeError]. *)
Definition isol_getitem (isol_es : option (gmap Z Q)) (j : Z) : res Q :=
  match isol_es with
  | None => raise TypeError
  | Some d =>
      match d !! j with
      | Some v => ret v
      | None => raise (KeyErrorNum j)
      end
  end.

Definition Qsum (xs : list Q) : Q := foldr Qplus 0 xs.

(** [round(x)] to an integer: ties go to the even neighbour. *)
Definition py_round (x : Q) : Z :=
  let f := Qfloor x in
  let r := x - inject_Z f in
  match Qcompare r (1 # 2) with
  | Lt => f
  | Gt => (f + 1)%Z
  | Eq => if Z.even f then f else (f + 1)%Z
  end.

Definition Qmin_list (x : Q) (xs : list Q) : Q :=
  foldr (fun a b => if Qle_bool a b then a else b) x xs.

Definition Qmax_list (x : Q) (xs : list Q) : Q :=
  foldr (fun a b => if Qle_bool b a then a else b) x xs.

(** [np.histogram(values)] with its default of 10 equal-width bins, for a
    non-empty array: the counts and the 11 bin edges. *)
Definition histogram_range (values : list Q) : Q * Q :=
  match values with
  | [] => (0, 1)
  | v :: vs =>
      let first_edge := Qmin_list v vs in
      let last_edge := Qmax_list v vs in
      if Qeq_bool first_edge last_edge
      then (first_edge - (1 # 2), last_edge + (1 # 2))
      else (first_edge, last_edge)
  end.

Definition bin_edges (values : list Q) : list Q :=
  let '(first_edge, last_edge) := histogram_range values in
  map (fun k : nat =>
         first_edge + inject_Z (Z.of_nat k) * ((last_edge - first_edge) / 10))
      (seq 0 11).

(** The bin a value is counted in; the last bin is closed on the right. *)
Definition bin_of (values : list Q) (x : Q) : Z :=
  let '(first_edge, last_edge) := histogram_range values in
  Z.min 9 (Qfloor ((x - first_edge) * 10 / (last_edge - first_edge))).

Definition bin_counts (values : list Q) : list Z :=
  map (fun b : nat =>
         Z.of_nat (length (filter (fun x => bin_of values x = Z.of_nat b) values)))
      (seq 0 10).

(** [np.searchsorted(a, v, side='right')] on a sorted array: the number of
    entries [<= v]; [side='left']: the number of entries [< v]. *)
Definition searchsorted_right (a : list Q) (v : Q) : nat :=
  length (filter (fun x => Qle_bool x v = true) a).

Definition searchsorted_left (a : list Q) (v : Q) : nat :=
  length (filter (fun x => Qle_bool v x = false) a).

(** [np.cumsum] *)
Fixpoint cumsum_from (acc : Q) (xs : list Q) : list Q :=
  match xs with
  | [] => []
  | x :: xs' => (acc + x) :: cumsum_from (acc + x) xs'
  end.

Definition cumsum (xs : list Q) : list Q := cumsum_from 0 xs.

(** The enthalpy proxy in the words of the specification:
    [(E_config - sum of isolated_atom_energies) / n_atoms
     + V_config * P_config / n_atoms]. *)
Definition spec_enthalpy_proxy (E_config isolated_sum n_atoms V_config P_config : Q) : Q :=
  (E_config - isolated_sum) / n_atoms + V_config * P_config / n_atoms.


(** [np.delete(a, i)] raises [IndexError] when [i] is out of bounds. *)
Definition np_delete {A : Type} (a : list A) (i : nat) : res (list A) :=
  if decide (i < length a)%nat then ret (delete i a) else raise IndexError.

(** [np.argsort]: the indices in ascending order of their score. *)
Definition score_le (scores : list Q) (i j : nat) : Prop :=
  Qle_bool (nth i scores 0) (nth j scores 0) = true.

Definition argsort (scores : list Q) : list nat :=
  @merge_sort nat (score_le scores)
    (fun i j => decide (Qle_bool (nth i scores 0) (nth j scores 0) = true))
    (seq 0 (length scores)).

(** The slice [l[-k:]]. *)
Definition slice_last (k : Z) (l : list nat) : list nat :=
  let n := Z.of_nat (length l) in
  let start := if (- k <? 0)%Z then Z.max (n - k) 0 else Z.min (- k) n in
  drop (Z.to_nat start) l.

Definition no_pressures_message : string := "No pressures, so can't Boltzmann weight".

Definition isol_es_message : string :=
  "isol_es (isolated_atom_energies) must be supplied for convexhull_CUR".

Section Samplers.

(** [ase.units.GPa] *)
Variable GPa : Q.

(** [np.exp] *)
Variable np_exp : Q → Q.

(** numpy's global random state, [np.random.uniform()] and
    [np.random.choice(range(n), size=size, replace=False, p=p)] on it. *)
Variable rng : Type.
Variable uniform : rng → Q * rng.
Variable choice : rng → nat → Z → list Q → res (list nat * rng).

(** Lines 968-994 of [cur_select]: the descriptor vectors (quippy, in a
    process pool), the kernel matrix, scipy's truncated SVD and the
    leverage scores [c_scores] computed from it. *)
Variable leverage_scores : option string → Q → Z → list Atoms → res (list Q).

(** The hull distances [des] of [convexhull_CUR], computed by
    [autoplex.fitting.common.regularization] from the scheme, the energy
    label, [isol_es], [element_order] and the caller's list. *)
Variable hull_distances :
  string → string → gmap Z Q → option (list string) → list item → res (list Q).

(** [cur_select].  The process pool hands back copies of the
    configurations with a ['descriptor_vec'] entry, which is deleted again
    from the selected ones; a copy stands for the configuration it was
    made from.  [None] is Python's [None], returned when the guard of line
    972 fails. *)
Definition cur_select (atoms : list item) (selected_descriptor : option string)
    (kernel_exp : Q) (select_nums : Z) (stochastic : bool) (g : rng)
    : res (option (list item) * rng) :=
  let* first := index atoms 0 in
  let fatoms := if is_list first then flatten atoms else atoms in
  let* ats := traverse as_atoms fatoms in
  if negb (length ats =? 0)%nat then
    let* c_scores := leverage_scores selected_descriptor kernel_exp select_nums ats in
    let* '(selected, g) :=
      if stochastic then
        let* '(drawn, g) := choice g (length ats) select_nums c_scores in
        ret (merge_sort le drawn, g)
      else ret (merge_sort le (slice_last select_nums (argsort c_scores)), g) in
    let* selected_atoms := traverse (index ats) selected in
    ret (Some (map Config selected_atoms), g)
  else ret (None, g).

(** What numpy documents for [choice(range(n), size, replace=False)]:
    [size] distinct indices. *)
Definition choice_without_replacement : Prop :=
  ∀ (g g' : rng) (n : nat) (size : Z) (p : list Q) (drawn : list nat),
    choice g n size p = inr (drawn, g') →
    NoDup drawn ∧ length drawn = Z.to_nat size.

(** Lines 1083-1093: the pressures [ps]. *)
Definition pressures (P : option (list Q)) (fatoms : list item) : res (list Q) :=
  match P with
  | None =>
      match traverse (fun at_ => let* a := as_atoms at_ in getitem (info a) "pressure")
              fatoms with
      | inl _ => raise (RuntimeError no_pressures_message)
      | inr ps => ret ps
      end
  | Some ps => ret ps
  end.

Definition len (a : Atoms) : Q := inject_Z (Z.of_nat (length (atomic_numbers a))).

(** One entry of [ener_relative] (lines 1098-1100).  [energy_label] is a
    parameter of [boltzhist_CUR]; the lookup is written with the literal
    key. *)
Definition ener_relative_of (isol_es : option (gmap Z Q)) (atom : Atoms) : res Q :=
  let* energy := getitem (info atom) "energy" in
  let* isolated := traverse (isol_getitem isol_es) (atomic_numbers atom) in
  if (length (atomic_numbers atom) =? 0)%nat then raise ZeroDivisionError
  else ret ((energy - Qsum isolated) / len atom).

(** Line 1102. *)
Definition enthalpy_of (ener_relative_i : Q) (at_ : Atoms) (ps_i : Q) : Q :=
  (ener_relative_i + volume at_ * ps_i * GPa) / len at_.

(** The loop of lines 1101-1103. *)
Fixpoint enthalpy_loop (i : nat) (ats : list Atoms) (ener_relative ps : list Q)
    : res (list Q) :=
  match ats with
  | [] => ret []
  | at_ :: rest =>
      let* er := index ener_relative i in
      let* p := index ps i in
      let* hs := enthalpy_loop (S i) rest ener_relative ps in
      ret (enthalpy_of er at_ p :: hs)
  end.

Definition enthalpies_of (isol_es : option (gmap Z Q)) (P : option (list Q))
    (fatoms : list item) : res (list Q) :=
  let* ps := pressures P fatoms in
  let* ats := traverse as_atoms fatoms in
  let* ener_relative := traverse (ener_relative_of isol_es) ats in
  enthalpy_loop 0 ats ener_relative ps.

(** Lines 1106-1119 (and 1242-1256): one weight per value; [np.min] of an
    empty array raises [ValueError]. *)
Definition config_weights (kT : Q) (values : list Q) : res (list Q) :=
  match values with
  | [] => raise ValueError
  | v :: vs =>
      let min_H := Qmin_list v vs in
      let counts := bin_counts values in
      let inner_edges := drop 1 (bin_edges values) in
      ret (map
             (fun H =>
                let bin_i := searchsorted_right inner_edges H in
                let bin_i := if (bin_i =? length inner_edges)%nat
                             then (bin_i - 1)%nat else bin_i in
                let count := nth bin_i counts 0%Z in
                let p := if (0 <? count)%Z then 1 / inject_Z count else 0 in
                if Qle_bool kT 0 then p else p * np_exp (- (H - min_H) / kT))
             values)
  end.

(** [select_num] (lines 1121-1126). *)
Definition select_num_of (bolt_frac : Q) (bolt_max_num : Z) (fatoms : list item) : Z :=
  let select_num := py_round (bolt_frac * inject_Z (Z.of_nat (length fatoms))) in
  if (select_num <? bolt_max_num)%Z then select_num else bolt_max_num.

(** The index drawn in one pass (lines 1131-1134), with the normalised
    weights.  np.exp is positive, so the weights are not negative and a
    zero total means that every weight is zero: numpy's division then
    fills the array with nan, and [np.searchsorted] answers 0 on it. *)
Definition draw (config_prob : list Q) (g : rng) : list Q * nat * rng :=
  let total := Qsum config_prob in
  let config_prob := map (fun p => p / total) config_prob in
  let cumul_prob := cumsum config_prob in
  let '(rv, g) := uniform g in
  let config_i := if Qeq_bool total 0 then 0%nat else searchsorted_left cumul_prob rv in
  (config_prob, config_i, g).

(** The sampling loop (lines 1130-1140).  The first component of the
    result is the list object [fatoms] as the loop leaves it, also when
    an exception ends the loop. *)
Fixpoint draw_loop (passes : nat) (config_prob : list Q) (fatoms : list item)
    (values : list Q) (selected_bolt_ats : list item) (g : rng)
    : list item * res (list item * rng) :=
  match passes with
  | O => (fatoms, ret (selected_bolt_ats, g))
  | S passes' =>
      let '(config_prob, config_i, g) := draw config_prob g in
      match fatoms !! config_i with
      | None => (fatoms, raise IndexError)
      | Some chosen =>
          let selected_bolt_ats := selected_bolt_ats ++ [chosen] in
          match np_delete config_prob config_i with
          | inl e => (fatoms, inl e)
          | inr config_prob =>
              let fatoms := delete config_i fatoms in
              match np_delete values config_i with
              | inl e => (fatoms, inl e)
              | inr values =>
                  draw_loop passes' config_prob fatoms values selected_bolt_ats g
              end
          end
      end
  end.

(** Lines 1142-1152: the CUR stage. *)
Definition cur_stage (selected_bolt_ats : list item) (descriptor : option string)
    (kernel_exp : Q) (cur_num select_num : Z) (g : rng)
    : res (option (list item) * rng) :=
  if (cur_num <? select_num)%Z
  then cur_select selected_bolt_ats descriptor kernel_exp cur_num true g
  else ret (Some selected_bolt_ats, g).

(** The list object the sampling loop works on (lines 1077-1081), and
    whether it is the caller's own list. *)
Definition working_pool (atoms : list item) (first : item) : list item :=
  if is_list first then flatten atoms else atoms.

(** [boltzhist_CUR].  The first component of the result is the content of
    the caller's list [atoms] after the call; the second is what the call
    returns or raises. *)
Definition boltzhist_CUR (atoms : list item) (isol_es : option (gmap Z Q))
    (bolt_frac : Q) (bolt_max_num cur_num : Z) (kernel_exp kT : Q)
    (energy_label : string) (P : option (list Q)) (descriptor : option string)
    (g : rng) : list item * res (option (list item) * rng) :=
  match atoms with
  | [] => (atoms, raise IndexError)
  | first :: _ =>
      let fatoms := working_pool atoms first in
      match (let* enthalpies := enthalpies_of isol_es P fatoms in
             let* config_prob := config_weights kT enthalpies in
             ret (enthalpies, config_prob)) with
      | inl e => (atoms, inl e)
      | inr (enthalpies, config_prob) =>
          let select_num := select_num_of bolt_frac bolt_max_num fatoms in
          let '(fatoms_after, drawn) :=
            draw_loop (Z.to_nat select_num) config_prob fatoms enthalpies [] g in
          (if is_list first then atoms else fatoms_after,
           let* '(selected_bolt_ats, g) := drawn in
           cur_stage selected_bolt_ats descriptor kernel_exp cur_num select_num g)
      end
  end.

(** [convexhull_CUR], with the same reading of the result. *)
Definition convexhull_CUR (atoms : list item) (bolt_frac : Q)
    (bolt_max_num cur_num : Z) (kernel_exp kT : Q) (energy_label : string)
    (descriptor : option string) (isol_es : option (gmap Z Q))
    (element_order : option (list string)) (scheme : string) (g : rng)
    : list item * res (option (list item) * rng) :=
  match atoms with
  | [] => (atoms, raise IndexError)
  | first :: _ =>
      let fatoms := working_pool atoms first in
      match (match isol_es with
             | None => raise (KeyError isol_es_message)
             | Some isol =>
                 if bool_decide (scheme = "linear-hull" ∨ scheme = "volume-stoichiometry")
                 then
                   let* des := hull_distances scheme energy_label isol element_order atoms in
                   let* config_prob := config_weights kT des in
                   ret (des, config_prob)
                 else raise ValueError
             end) with
      | inl e => (atoms, inl e)
      | inr (des, config_prob) =>
          let select_num := select_num_of bolt_frac bolt_max_num fatoms in
          let '(fatoms_after, drawn) :=
            draw_loop (Z.to_nat select_num) config_prob fatoms des [] g in
          (if is_list first then atoms else fatoms_after,
           let* '(selected_bolt_ats, g) := drawn in
           cur_stage selected_bolt_ats descriptor kernel_exp cur_num select_num g)
      end
  end.

End Samplers.

Arguments cur_select {rng}.
Arguments choice_without_replacement {rng}.
Arguments draw {rng}.
Arguments draw_loop {rng}.
Arguments cur_stage {rng}.
Arguments boltzhist_CUR GPa np_exp {rng}.
Arguments convexhull_CUR np_exp {rng}.

End Selection.

(** ** k-point density of the displacement maker
    ([autoplex/data/phonons/utils.py]) *)

Module PhononMaker.

Open Scope Q_scope.

(** A phonon displacement maker, as far as
    [update_phonon_displacement_maker] touches it: the
    [user_kpoints_settings] dictionary of its input set generator. *)
Record PhononDisplacementMaker : Type := MkMaker {
  maker_name : string;
  user_kpoints_settings : gmap string Z
}.

(** [update_phonon_displacement_maker(lattice, phonon_displacement_maker)];
    [round(lattice, 0)] rounds half to even. *)
Definition update_phonon_displacement_maker (lattice : Q)
    (phonon_displacement_maker : PhononDisplacementMaker) : PhononDisplacementMaker :=
  if negb (Qle_bool lattice 10) then
    let density := (350 - 15 * Selection.py_round lattice)%Z in
    let density := if negb (Qle_bool lattice 20) then 50%Z else density in
    MkMaker (maker_name phonon_displacement_maker) {[ "reciprocal_density" := density ]}
  else phonon_displacement_maker.

End PhononMaker.

(** ** Rattling ([std_rattle] of [autoplex/data/common/utils.py]) *)

Module Rattle.

Import Geometry.

Section StdRattle.

Context {B : CellBackend}.

(** [atoms.rattle(stdev=..., seed=...)] on a copy. *)
Variable rattle : Atoms → Q → Z → Atoms.

Variables (atoms : Atoms) (rattle_std : Q).

(** The body of [for i in range(n_structures)], with the local variable
    [rattle_seed] and the list [rattled_xtals] as state. *)
Definition rattle_pass (i : nat) (rattle_seed : Z) (rattled_xtals : list Structure)
    : res (Z * list Structure) :=
  let* rattled_xtals :=
    if (i =? 0)%nat then
      let copy := rattle atoms rattle_std rattle_seed in
      let* s := get_structure copy in ret (rattled_xtals ++ [s])
    else ret rattled_xtals in
  if (0 <? i)%nat then
    let rattle_seed := (rattle_seed + 1)%Z in
    let copy := rattle atoms rattle_std rattle_seed in
    let* s := get_structure copy in ret (rattle_seed, rattled_xtals ++ [s])
  else ret (rattle_seed, rattled_xtals).

Fixpoint rattle_loop (indices : list nat) (rattle_seed : Z)
    (rattled_xtals : list Structure) : res (list Structure) :=
  match indices with
  | [] => ret rattled_xtals
  | i :: rest =>
      let* '(rattle_seed, rattled_xtals) := rattle_pass i rattle_seed rattled_xtals in
      rattle_loop rest rattle_seed rattled_xtals
  end.

End StdRattle.

Definition std_rattle {B : CellBackend} (rattle : Atoms → Q → Z → Atoms)
    (structure : Structure) (n_structures : Z) (rattle_std : Q) (rattle_seed : Z)
    : res (list Structure) :=
  let atoms := get_atoms structure in
  rattle_loop rattle atoms rattle_std (seq 0 (Z.to_nat n_structures)) rattle_seed [].

End Rattle.

(** ** File names, error metrics and species
    ([autoplex/data/common/utils.py]) *)

Module Common.

Open Scope Q_scope.

(** [needle in s] *)
Fixpoint contains (needle s : string) : bool :=
  String.prefix needle s
  || match s with
     | EmptyString => false
     | String _ s' => contains needle s'
     end.

(** [s.split(sep, 1)[0]] for a one-character separator: the part of [s]
    before the first [sep], all of [s] when there is none. *)
Fixpoint before_first (sep : Ascii.ascii) (s : string) : string :=
  match s with
  | EmptyString => EmptyString
  | String c s' => if Ascii.eqb c sep then EmptyString else String c (before_first sep s')
  end.

Definition problem_message : string := "A problem with the files occurred.".

Definition extract_base_name (filename : string) (is_out : bool) : string :=
  if is_out then
    if contains "quip_train" filename then "quip_train"
    else if contains "quip_test" filename then "quip_test"
    else problem_message
  else
    let base_name := before_first "."%char filename in
    before_first "_"%char base_name.

(** [rms_dict] on one-dimensional arrays.  [None] is numpy's nan, the
    mean of an empty array. *)
Definition average (xs : list Q) : option Q :=
  match xs with
  | [] => None
  | _ => Some (Selection.Qsum xs / inject_Z (Z.of_nat (length xs)))
  end.

(** [np.var] *)
Definition variance (xs : list Q) : option Q :=
  match average xs with
  | None => None
  | Some m => average (map (fun x => (x - m) * (x - m)) xs)
  end.

Record rms : Type := MkRms { rmse : option Q; std : option Q }.

Section RmsDict.

(** [np.sqrt] *)
Variable np_sqrt : Q → Q.

Definition rms_dict (x_ref x_pred : list Q) : res rms :=
  if negb (length x_pred =? length x_ref)%nat then raise ValueError else
  let error_2 := map (fun '(r, p) => (r - p) * (r - p)) (zip x_ref x_pred) in
  let average_ := np_sqrt <$> average error_2 in
  let std_ := np_sqrt <$> variance error_2 in
  ret (MkRms average_ std_).

End RmsDict.

(** *** The [Species] class

    [atoms] is the list of configurations, each given by its
    [get_chemical_symbols()]. *)

Section Species.

(** The order in which [list(set(sym_all))] lists the distinct symbols;
    it depends on the hashes of the strings. *)
Variable set_order : list string → list string.

(** The inner loop of [get_species]. *)
Fixpoint add_new (syms species_list : list string) : list string :=
  match syms with
  | [] => species_list
  | sym :: rest =>
      if bool_decide (sym ∈ species_list) then add_new rest species_list
      else add_new rest (species_list ++ [sym])
  end.

Fixpoint get_species_from (atoms : list (list string)) (species_list : list string)
    : list string :=
  match atoms with
  | [] => species_list
  | sym_all :: rest => get_species_from rest (add_new (set_order sym_all) species_list)
  end.

Definition get_species (atoms : list (list string)) : list string :=
  get_species_from atoms [].

(** [find_element_pairs]: [(species_list[i], species_list[j])] for
    [i <= j], in the order of the two nested loops. *)
Definition pairs_of (species_list : list string) : list (string * string) :=
  flat_map
    (fun i : nat =>
       map (fun j : nat => (nth i species_list "", nth j species_list ""))
           (seq i (length species_list - i)))
    (seq 0 (length species_list)).

Definition find_element_pairs (atoms : list (list string))
    (symb_list : option (list string)) : list (string * string) :=
  let species_list :=
    match symb_list with
    | None => get_species atoms
    | Some l => l
    end in
  pairs_of species_list.

Definition get_number_of_species (atoms : list (list string)) : Z :=
  Z.of_nat (length (get_species atoms)).

End Species.

(** What Python guarantees about [list(set(l))]: the members of [l], each
    once. *)
Definition lists_a_set (set_order : list string → list string) : Prop :=
  ∀ l, NoDup (set_order l) ∧ ∀ x, x ∈ set_order l ↔ x ∈ l.

End Common.

(** ** Positions in the histogram *)

Module Histogram.

Open Scope Q_scope.

(** Where a value lies between the first and the last edge of the
    histogram, in units of the bin width: the expression
    [np.histogram] truncates to find the bin. *)
Definition bin_position (first_edge last_edge H : Q) : Q :=
  (H - first_edge) * 10 / (last_edge - first_edge).

End Histogram.

(** * Concrete inputs

    Pools, structures and stand-ins for the external libraries at which
    the functions above are evaluated below. *)

Module SupercellExamples.

Import Supercell.

(** A cubic cell with lattice parameter 4. *)
Definition cubic4 (_ : unit) : Q * Q * Q := (4 # 1, 4 # 1, 4 # 1)%Q.

(** A search that finds nothing at a minimum length of 18 and, with
    orthorhombic shapes and forced right angles, a 5x5x4 supercell of 100
    sites at 17. *)
Definition finds_at_17 (args : cubic_args) (_ : unit) : option (Matrix3D * Z) :=
  if (ca_min_length args =? 17) && ca_allow_orthorhombic args && ca_force_90_degrees args
  then Some (((5, 0, 0), (0, 5, 0), (0, 0, 4)), 100)
  else None.

Definition never_finds (args : cubic_args) (_ : unit) : option (Matrix3D * Z) := None.

End SupercellExamples.

Module GeometryExamples.

Import Geometry.

Open Scope Q_scope.

(** Silicon in a cubic cell of edge 4: two sites. *)
Definition si_cubic : QStructure :=
  MkStructure ((4, 0, 0), (0, 4, 0), (0, 0, 4)) ["Si"; "Si"]
    [(0, 0, 0); (1 # 2, 1 # 2, 1 # 2)].

(** [x ** (1 / 3)] where it is only ever called at 1. *)
Definition cbrt_at_one (x : Q) : Q := 1.

(** [x ** (1 / 3)] where it is only ever called at 1.03: the cube root of
    1.03 to four decimals. *)
Definition cbrt_of_103 (x : Q) : Q := 10099 # 10000.

(** An [np.arange] for calls that give their scale factors themselves. *)
Definition arange_not_called (start stop step : Q) : res (list Q) := ret [].

(** What [np.arange] returns in doubles for the bounds 0.9 and 1.1 and
    three structures, that is [np.arange(0.9, 1.2000000000000002,
    0.10000000000000003)]: the four doubles printed as 0.9, 1.0, 1.1 and
    1.2. *)
Definition arange_09_11 (start stop step : Q) : res (list Q) :=
  ret [8106479329266893 # 9007199254740992; 1;
       2476979795053773 # 2251799813685248; 5404319552844595 # 4503599627370496].

(** The doubles 0.9 and 1.1. *)
Definition range_09_11 : list Q :=
  [8106479329266893 # 9007199254740992; 2476979795053773 # 2251799813685248].

(** A backend for atoms in a row: a structure is given by its number of
    atoms and its six cell parameters, the atoms sit at equal spacing on
    the first cell edge.  Scaling the cell scales the atoms along, so two
    atoms [k] places apart keep the minimum-image distance
    [min(k, n - k) / n] of the first cell length (the cells used below
    have three equal edges and angles between 58 and 115 degrees, where
    no other image is nearer). *)
Definition scale_lengths (k : Q) (c : list Q) : list Q :=
  imap (fun (i : nat) x => if (i <? 3)%nat then k * x else x) c.

Record row : Type := MkRow {
  sites : nat;
  cellpars : list Q
}.

Definition row_distance (a : row) (i j : nat) : Q :=
  let k := ((i - j) + (j - i))%nat in
  inject_Z (Z.of_nat (Nat.min k (sites a - k))) / inject_Z (Z.of_nat (sites a))
  * nth 0 (cellpars a) 0.

#[export] Instance RowBackend : CellBackend := {|
  Structure := row;
  Atoms := row;
  Cell := list Q;
  get_atoms := fun s => s;
  get_structure := fun a => ret a;
  get_cell := cellpars;
  cell_mul := scale_lengths;
  set_cell := fun a c => ret (MkRow (sites a) c)
|}.

#[export] Instance RowAngles : AngleBackend RowBackend := {|
  cellpar := fun c => c;
  set_cellpar := fun a c => ret (MkRow (sites a) c);
  num_atoms := sites;
  get_distances := fun a i indices => map (row_distance a i) indices
|}.

(** A [random] state whose [randint(a, b)] always answers [a] and which
    keeps the list of the ranges it was asked for. *)
Definition lowest : Type := list (Z * Z).

Definition randint_lowest (g : lowest) (a b : Z) : Z * lowest := (a, g ++ [(a, b)]).

(** Two atoms in a cubic cell of edge 4 (2 apart), two atoms in a cell of
    edge 4 with the angles 65, 90 and 115, and one atom in the cubic
    cell. *)
Definition cubic_pair : row := MkRow 2 [4; 4; 4; 90; 90; 90].
Definition skew_pair : row := MkRow 2 [4; 4; 4; 65; 90; 115].
Definition cubic_single : row := MkRow 1 [4; 4; 4; 90; 90; 90].

End GeometryExamples.

Module SelectionExamples.

Import Selection.

Open Scope Q_scope.

(** [ase.units.GPa], in eV per cubic Angstrom: 0.006241509125883258. *)
Definition GPa : Q := 6241509125883258 # 1000000000000000000.

(** A random state that replays a given list of [np.random.uniform()]
    outcomes (and 0 once the list is used up). *)
Definition replay : Type := list Q.

Definition uniform (g : replay) : Q * replay :=
  match g with
  | [] => (0, [])
  | rv :: g' => (rv, g')
  end.

(** A [np.random.choice] that draws the first [size] indices. *)
Definition choice (g : replay) (n : nat) (size : Z) (p : list Q)
    : res (list nat * replay) :=
  if (size <? 0)%Z || (Z.of_nat n <? size)%Z then raise ValueError
  else ret (seq 0 (Z.to_nat size), g).

(** Equal leverage scores for all configurations. *)
Definition leverage_scores (descriptor : option string) (kernel_exp : Q)
    (select_nums : Z) (ats : list Atoms) : res (list Q) :=
  ret (map (fun _ => 1 / inject_Z (Z.of_nat (length ats))) ats).

(** All configurations on the hull. *)
Definition hull_distances (scheme energy_label : string) (isol_es : gmap Z Q)
    (element_order : option (list string)) (atoms : list item) : res (list Q) :=
  ret (map (fun _ => 0) atoms).

(** Stands in for [np.exp] where [kT <= 0] keeps it from being called. *)
Definition exp_not_called (x : Q) : Q := 1.

(** Isolated-atom energies: silicon at 0. *)
Definition isol_es : gmap Z Q := {[ 14%Z := 0 ]}.

(** A two-atom silicon cell of total energy 4 at zero pressure. *)
Definition si2 : Atoms :=
  MkAtoms 1 [14; 14]%Z 40 {[ "energy" := 4; "pressure" := 0 ]}.

(** A one-atom silicon cell of energy 0 and volume 20 under 1 GPa. *)
Definition si1 : Atoms :=
  MkAtoms 2 [14]%Z 20 {[ "energy" := 0; "pressure" := 1 ]}.

(** A configuration labelled by the fitting stage: its energy is stored
    under [REF_energy] only. *)
Definition si_ref : Atoms :=
  MkAtoms 3 [14]%Z 20 {[ "REF_energy" := -5; "pressure" := 0 ]}.

(** A configuration without pressure metadata. *)
Definition si_no_pressure : Atoms :=
  MkAtoms 4 [14]%Z 20 {[ "energy" := -5 ]}.

End SelectionExamples.

Module FurtherExamples.

Open Scope Q_scope.

(** Stands in for [atoms.rattle]: every atom is moved along x by
    [stdev * seed]. *)
Definition shift_rattle (a : Geometry.QAtoms) (stdev : Q) (seed : Z) : Geometry.QAtoms :=
  Geometry.MkAtoms (Geometry.cell a) (Geometry.symbols a)
    (map (fun p => Geometry.vec_add p (stdev * inject_Z seed, 0, 0)) (Geometry.positions a)).

(** Stands in for [np.sqrt] where only its value at 0 matters. *)
Definition sqrt_at_zero (x : Q) : Q := x.

(** A random state whose [np.random.uniform()] is always 1/4. *)
Definition always_quarter (g : unit) : Q * unit := (1 # 4, tt).

(** A [np.random.choice] on that state: the first [size] indices. *)
Definition choice_first (g : unit) (n : nat) (size : Z) (p : list Q)
    : res (list nat * unit) :=
  if (size <? 0)%Z || (Z.of_nat n <? size)%Z then raise ValueError
  else ret (seq 0 (Z.to_nat size), g).

(** Stands in for [np.exp] where [kT <= 0] keeps it from being called;
    positive like the exponential. *)
Definition exp_positive (x : Q) : Q := 1.

(** [list(set(l))] in the order of first occurrence. *)
Definition first_occurrences (l : list string) : list string := remove_dups l.

End FurtherExamples.

(** * Properties *)

(** ** Supercell-size search *)

Section SupercellFacts.

Import Supercell.

Context {Structure : Type} (abc : Structure → Q * Q * Q).
Context (cubic_supercell : cubic_args → Structure → option (Matrix3D * Z)).

Lemma range_down_cons (start stop : Z) :
  stop < start → ∃ rest, range_down start stop = start :: rest.
Proof.
  intros Hlt. unfold range_down.
  destruct (Z.to_nat (start - stop)) as [|n] eqn:Hn; [lia|].
  exists (map (fun k : nat => start - Z.of_nat k) (seq 1 n)).
  simpl. f_equal. lia.
Qed.

Lemma range_down_nil (start stop : Z) :
  start ≤ stop → range_down start stop = [].
Proof.
  intros Hle. unfold range_down.
  replace (Z.to_nat (start - stop)) with 0%nat by lia. reflexivity.
Qed.

(** Whenever the loop is entered the function returns in its first pass:
    the tiers are tried at [min_length] only, and the diagonal matrix is
    returned as soon as they fail there. *)
Lemma reduce_supercell_size_first_pass
    (s : Structure) (min_length : Z) (max_length : Q) (fallback_min_length : Z)
    (min_atoms max_atoms : Z) (step_size : Q) :
  fallback_min_length < min_length →
  reduce_supercell_size abc cubic_supercell s min_length max_length
    fallback_min_length min_atoms max_atoms step_size
  = Some (match tiers cubic_supercell s max_length min_atoms max_atoms step_size
                  min_length with
          | Some m => m
          | None => diagonal_fallback abc s max_length
          end)
  ∧ trials_run abc cubic_supercell s max_length min_atoms max_atoms step_size
      (range_down min_length fallback_min_length) = [min_length].
Proof.
  intros Hlt. unfold reduce_supercell_size.
  destruct (range_down_cons min_length fallback_min_length Hlt) as [rest ->].
  simpl. unfold loop_body.
  destruct (tiers _ _ _ _ _ _ _); auto.
Qed.

(** C5: with [min_length <= fallback_min_length] the range of the loop is
    empty, no [return] statement is reached, and the function returns
    Python's [None] instead of a matrix. *)
Theorem reduce_supercell_size_empty_range_returns_None
    (s : Structure) (min_length : Z) (max_length : Q) (fallback_min_length : Z)
    (min_atoms max_atoms : Z) (step_size : Q) :
  min_length ≤ fallback_min_length →
  reduce_supercell_size abc cubic_supercell s min_length max_length
    fallback_min_length min_atoms max_atoms step_size = None.
Proof.
  intros Hle. unfold reduce_supercell_size.
  rewrite range_down_nil by exact Hle. reflexivity.
Qed.

End SupercellFacts.

(** C4: with the default bounds ([min_length] 18, [max_length] 22,
    [fallback_min_length] 12, 100 to 500 atoms) and a search that fails at
    18 but succeeds at 17, the call runs the tiers at 18 only and returns
    the diagonal fallback; the trial lengths 17 to 13 are never attempted. *)
Theorem reduce_supercell_size_skips_lower_trials :
  Supercell.reduce_supercell_size SupercellExamples.cubic4 SupercellExamples.finds_at_17
    tt 18 (22 # 1) 12 100 500 (1 # 1)
  = Some ((5, 0, 0), (0, 5, 0), (0, 0, 5))
  ∧ Supercell.trials_run SupercellExamples.cubic4 SupercellExamples.finds_at_17
      tt (22 # 1) 100 500 (1 # 1) (Supercell.range_down 18 12) = [18]
  ∧ Supercell.range_down 18 12 = [18; 17; 16; 15; 14; 13]
  ∧ Supercell.tiers SupercellExamples.finds_at_17 tt (22 # 1) 100 500 (1 # 1) 17
    = Some ((5, 0, 0), (0, 5, 0), (0, 0, 4)).
Proof. repeat split; vm_compute; reflexivity. Qed.

(** The default fallback length 12 as [min_length]. *)
Lemma reduce_supercell_size_empty_range_witness :
  12 ≤ 12 ∧
  Supercell.reduce_supercell_size SupercellExamples.cubic4 SupercellExamples.never_finds
    tt 12 (22 # 1) 12 100 500 (1 # 1) = None.
Proof.
  split; [lia|].
  apply (reduce_supercell_size_empty_range_returns_None
           SupercellExamples.cubic4 SupercellExamples.never_finds tt 12 (22 # 1) 12 100 500 (1 # 1)).
  lia.
Defined.

(** ** Selection *)

Section SelectionFacts.

Import Selection.

Context (GPa : Q) (np_exp : Q → Q).
Context {rng : Type} (uniform : rng → Q * rng).
Context (choice : rng → nat → Z → list Q → res (list nat * rng)).
Context (leverage_scores : option string → Q → Z → list Atoms → res (list Q)).
Context (hull_distances :
  string → string → gmap Z Q → option (list string) → list item → res (list Q)).

(** C8: on the empty pool [cur_select] evaluates [atoms[0]] before it
    reaches its [len(ats) != 0] guard, and raises [IndexError]. *)
Theorem cur_select_empty_pool_raises
    (selected_descriptor : option string) (kernel_exp : Q) (select_nums : Z)
    (stochastic : bool) (g : rng) :
  cur_select choice leverage_scores [] selected_descriptor kernel_exp select_nums
    stochastic g = inl IndexError.
Proof. reflexivity. Qed.

(** The guard does its work when the pool is a list holding one empty
    list: flattening leaves nothing, no scores are computed and Python's
    [None] is returned. *)
Lemma cur_select_nested_empty_guarded
    (selected_descriptor : option string) (kernel_exp : Q) (select_nums : Z)
    (stochastic : bool) (g : rng) :
  cur_select choice leverage_scores [Sub []] selected_descriptor kernel_exp
    select_nums stochastic g = inr (None, g).
Proof. reflexivity. Qed.

Lemma traverse_fails {A B : Type} (f : A → res B) (l : list A) (x : A) :
  x ∈ l → (∃ e, f x = inl e) → ∃ e, traverse f l = inl e.
Proof.
  intros Hin [e He]. induction l as [|y l IH]; [inversion Hin|].
  cbn [traverse]. unfold bind.
  apply elem_of_cons in Hin as [->|Hin].
  - rewrite He. eauto.
  - destruct (f y) as [e'|b]; [eauto|].
    destruct (IH Hin) as [e'' Hrest]. rewrite Hrest. eauto.
Qed.

(** C7: with [P=None], a configuration of the working pool that carries no
    ['pressure'] entry makes [boltzhist_CUR] raise the [RuntimeError]
    whose message names the missing pressures; nothing is selected and the
    caller's list is left as it was. *)
Theorem boltzhist_CUR_missing_pressure_raises
    (first : item) (rest : list item) (a : Atoms) (isol_es : option (gmap Z Q))
    (bolt_frac : Q) (bolt_max_num cur_num : Z) (kernel_exp kT : Q)
    (energy_label : string) (descriptor : option string) (g : rng) :
  Config a ∈ working_pool (first :: rest) first →
  info a !! "pressure" = None →
  boltzhist_CUR GPa np_exp uniform choice leverage_scores (first :: rest) isol_es
    bolt_frac bolt_max_num cur_num kernel_exp kT energy_label None descriptor g
  = (first :: rest, inl (RuntimeError "No pressures, so can't Boltzmann weight")).
Proof.
  intros Hin Hnone. unfold boltzhist_CUR, enthalpies_of, pressures.
  destruct (traverse_fails
              (fun at_ => let* a0 := as_atoms at_ in getitem (info a0) "pressure")
              _ _ Hin) as [e He].
  { exists (KeyError "pressure"). simpl. unfold getitem. rewrite Hnone. reflexivity. }
  rewrite He. reflexivity.
Qed.

(** C3: [boltzhist_CUR] never looks at its [energy_label] argument: the
    energy is read under the literal key ['energy'].  A configuration whose
    energy is stored under [REF_energy] makes the call with
    [energy_label='REF_energy'] raise [KeyError('energy')]. *)
Theorem boltzhist_CUR_ignores_energy_label :
  (∀ atoms isol_es bolt_frac bolt_max_num cur_num kernel_exp kT label1 label2 P
     descriptor (g : rng),
     boltzhist_CUR GPa np_exp uniform choice leverage_scores atoms isol_es bolt_frac
       bolt_max_num cur_num kernel_exp kT label1 P descriptor g
     = boltzhist_CUR GPa np_exp uniform choice leverage_scores atoms isol_es bolt_frac
         bolt_max_num cur_num kernel_exp kT label2 P descriptor g)
  ∧ (∀ g : rng,
       boltzhist_CUR GPa np_exp uniform choice leverage_scores
         [Config SelectionExamples.si_ref] (Some SelectionExamples.isol_es)
         (1 # 10) 3000 100 4 (3 # 10) "REF_energy" None None g
       = ([Config SelectionExamples.si_ref], inl (KeyError "energy"))).
Proof.
  split; [reflexivity|]. intros g. vm_compute. reflexivity.
Qed.

(** *** The sampling loop *)

Lemma np_delete_inr {A : Type} (a a' : list A) (i : nat) :
  np_delete a i = inr a' → a' = delete i a.
Proof. unfold np_delete. case_decide; [|discriminate]. intros [= <-]. reflexivity. Qed.

(** One pass of the loop: the drawn configuration is appended to the
    selection and deleted from the list before the next pass starts. *)
Lemma draw_loop_pass (passes : nat) (config_prob : list Q) (fatoms : list item)
    (values : list Q) (selected : list item) (g : rng) (chosen : item)
    (config_prob' values' : list Q) :
  let '(normalised, config_i, g1) := draw uniform config_prob g in
  fatoms !! config_i = Some chosen →
  np_delete normalised config_i = inr config_prob' →
  np_delete values config_i = inr values' →
  draw_loop uniform (S passes) config_prob fatoms values selected g
  = draw_loop uniform passes config_prob' (delete config_i fatoms) values'
      (selected ++ [chosen]) g1.
Proof.
  cbn [draw_loop].
  destruct (draw uniform config_prob g) as [[normalised config_i] g1].
  intros -> -> ->. reflexivity.
Qed.

(** A loop that runs to its end has drawn [passes] configurations, and the
    list it worked on lost exactly those: drawn and remaining entries
    together are the original list. *)
Lemma draw_loop_returns (passes : nat) :
  ∀ (config_prob : list Q) (fatoms : list item) (values : list Q)
    (selected : list item) (g : rng) (remaining selected' : list item) (g' : rng),
    draw_loop uniform passes config_prob fatoms values selected g
    = (remaining, inr (selected', g')) →
    ∃ drawn, selected' = selected ++ drawn ∧ length drawn = passes
             ∧ fatoms ≡ₚ drawn ++ remaining ∧ sublist remaining fatoms.
Proof.
  induction passes as [|passes IH]; intros config_prob fatoms values selected g
    remaining selected' g' Hrun.
  - cbn in Hrun. injection Hrun as <- <- <-.
    exists []. rewrite app_nil_r. repeat split; reflexivity.
  - cbn [draw_loop] in Hrun.
    destruct (draw uniform config_prob g) as [[normalised config_i] g1].
    destruct (fatoms !! config_i) as [chosen|] eqn:Hchosen; [|discriminate].
    destruct (np_delete normalised config_i) as [e|config_prob']; [discriminate|].
    destruct (np_delete values config_i) as [e|values']; [discriminate|].
    apply IH in Hrun as (drawn & -> & Hlen & Hperm & Hsub).
    exists (chosen :: drawn). repeat split.
    + rewrite <- app_assoc. reflexivity.
    + simpl. congruence.
    + rewrite (delete_Permutation fatoms config_i chosen Hchosen).
      simpl. constructor. exact Hperm.
    + etransitivity; [exact Hsub|]. apply sublist_delete.
Qed.

(** The list is never touched by a loop of no passes. *)
Lemma draw_loop_no_pass (config_prob : list Q) (fatoms : list item)
    (values : list Q) (selected : list item) (g : rng) :
  draw_loop uniform 0 config_prob fatoms values selected g
  = (fatoms, inr (selected, g)).
Proof. reflexivity. Qed.

(** *** The CUR stage *)

Lemma traverse_as_atoms (l : list item) (ats : list Atoms) :
  traverse as_atoms l = inr ats → l = map Config ats.
Proof.
  revert ats. induction l as [|x l IH]; intros ats H; cbn [traverse] in H.
  - injection H as <-. reflexivity.
  - destruct x as [a|sub]; cbn in H; [|discriminate].
    destruct (traverse as_atoms l) as [e|ats']; cbn in H; [discriminate|].
    injection H as <-. simpl. f_equal. apply IH. reflexivity.
Qed.

Lemma traverse_index {A : Type} (l : list A) (is_ : list nat) (xs : list A) :
  traverse (index l) is_ = inr xs → Forall2 (fun i x => l !! i = Some x) is_ xs.
Proof.
  revert xs. induction is_ as [|i is_ IH]; intros xs H; cbn [traverse] in H.
  - injection H as <-. constructor.
  - unfold index at 1 in H. destruct (l !! i) as [x|] eqn:Hi; cbn in H; [|discriminate].
    destruct (traverse (index l) is_) as [e|xs']; cbn in H; [discriminate|].
    injection H as <-. constructor; [exact Hi|]. apply IH. reflexivity.
Qed.

Lemma lookups_NoDup {A : Type} (l : list A) (is_ : list nat) (xs : list A) :
  Forall2 (fun i x => l !! i = Some x) is_ xs → NoDup l → NoDup is_ → NoDup xs.
Proof.
  intros Hall Hl. induction Hall as [|i x is_ xs Hi Hall IH]; intros Hnd.
  - constructor.
  - apply NoDup_cons in Hnd as [Hnotin Hnd]. apply NoDup_cons. split; [|auto].
    intros Hx. apply Hnotin.
    clear IH Hnd Hnotin. induction Hall as [|j y js ys Hj Hall IH].
    + inversion Hx.
    + apply elem_of_cons in Hx as [->|Hx].
      * rewrite (NoDup_lookup l i j y Hl Hi Hj). left.
      * right. auto.
Qed.

Lemma lookups_subseteq {A : Type} (l : list A) (is_ : list nat) (xs : list A) :
  Forall2 (fun i x => l !! i = Some x) is_ xs → xs ⊆ l.
Proof.
  intros Hall x Hx. induction Hall as [|i y is_ ys Hi Hall IH]; [inversion Hx|].
  apply elem_of_cons in Hx as [->|Hx]; [|auto].
  apply list_elem_of_lookup. eauto.
Qed.

#[local] Instance Config_inj : Inj (=) (=) Config.
Proof. intros a b [= ->]. reflexivity. Qed.

(** Stochastic CUR selection from a flat list of distinct configurations
    returns [select_nums] of them, no one twice. *)
Lemma cur_select_distinct (ats : list Atoms) (descriptor : option string)
    (kernel_exp : Q) (select_nums : Z) (g g' : rng) (out : option (list item)) :
  choice_without_replacement choice →
  NoDup (map Config ats) →
  cur_select choice leverage_scores (map Config ats) descriptor kernel_exp
    select_nums true g = inr (out, g') →
  ats = [] ∨
  ∃ picked, out = Some picked ∧ NoDup picked ∧ picked ⊆ map Config ats
            ∧ length picked = Z.to_nat select_nums.
Proof.
  intros Hchoice Hnd Hrun. destruct ats as [|a ats]; [left; reflexivity|right].
  unfold cur_select in Hrun.
  change (index (map Config (a :: ats)) 0) with (@ret item (Config a)) in Hrun.
  cbn [bind ret is_list] in Hrun.
  assert (Hats : traverse as_atoms (map Config (a :: ats)) = inr (a :: ats)).
  { clear. induction (a :: ats) as [|b l IH]; [reflexivity|].
    cbn [map traverse as_atoms ret bind]. rewrite IH. reflexivity. }
  rewrite Hats in Hrun. cbn [bind length Nat.eqb negb] in Hrun.
  destruct (leverage_scores _ _ _ _) as [e|c_scores]; [discriminate|].
  cbn [bind] in Hrun.
  destruct (choice _ _ _ _) as [e|[drawn g1]] eqn:Hdrawn; [discriminate|].
  cbn [bind ret] in Hrun.
  destruct (traverse (index (a :: ats)) (merge_sort le drawn)) as [e|picked] eqn:Hpicked;
    [discriminate|].
  cbn [bind ret] in Hrun. injection Hrun as <- <-.
  apply Hchoice in Hdrawn as [Hnd_drawn Hlen].
  apply traverse_index in Hpicked.
  exists (map Config picked). repeat split.
  - apply (NoDup_fmap_2 Config).
    eapply lookups_NoDup; [exact Hpicked| |].
    + eapply (NoDup_fmap_1 Config). exact Hnd.
    + rewrite merge_sort_Permutation. exact Hnd_drawn.
  - intros x Hx. apply list_elem_of_fmap in Hx as (b & -> & Hb).
    apply list_elem_of_fmap. exists b. split; [reflexivity|].
    eapply lookups_subseteq; eauto.
  - rewrite length_map. rewrite <- (Forall2_length _ _ _ Hpicked).
    rewrite merge_sort_Permutation. exact Hlen.
Qed.

(** *** [boltzhist_CUR] and [convexhull_CUR] *)

Lemma select_num_of_min (bolt_frac : Q) (bolt_max_num : Z) (fatoms : list item) :
  select_num_of bolt_frac bolt_max_num fatoms
  = Z.min (py_round (bolt_frac * inject_Z (Z.of_nat (length fatoms)))) bolt_max_num.
Proof.
  unfold select_num_of.
  destruct (Z.ltb_spec (py_round (bolt_frac * inject_Z (Z.of_nat (length fatoms))))
              bolt_max_num); lia.
Qed.

Lemma py_round_nonneg (x : Q) : (0 <= x)%Q → 0 ≤ py_round x.
Proof.
  intros Hx. assert (Hf : 0 ≤ Qfloor x).
  { pose proof (Qfloor_resp_le 0 x Hx) as H. exact H. }
  unfold py_round. destruct (Qcompare _ _); [destruct (Z.even _)| |]; lia.
Qed.

Lemma select_num_of_nonneg (bolt_frac : Q) (bolt_max_num : Z) (fatoms : list item) :
  (0 <= bolt_frac)%Q → 0 ≤ bolt_max_num → 0 ≤ select_num_of bolt_frac bolt_max_num fatoms.
Proof.
  intros Hfrac Hmax. rewrite select_num_of_min. apply Z.min_glb; [|exact Hmax].
  apply py_round_nonneg. apply Qmult_le_0_compat; [exact Hfrac|].
  change 0%Q with (inject_Z 0). rewrite <- Zle_Qle. lia.
Qed.

Lemma all_configs (l : list item) :
  (∀ x, x ∈ l → ∃ a, x = Config a) → ∃ ats, l = map Config ats.
Proof.
  induction l as [|x l IH]; intros Hall; [exists []; reflexivity|].
  destruct (Hall x) as [a ->]; [left|].
  destruct IH as [ats ->]; [intros y Hy; apply Hall; right; exact Hy|].
  exists (a :: ats). reflexivity.
Qed.

Lemma enthalpies_of_configs (isol_es : option (gmap Z Q)) (P : option (list Q))
    (fatoms : list item) (enthalpies : list Q) :
  enthalpies_of GPa isol_es P fatoms = inr enthalpies →
  ∃ ats, fatoms = map Config ats.
Proof.
  unfold enthalpies_of. intros H.
  destruct (pressures P fatoms) as [e|ps]; [discriminate|]. cbn [bind] in H.
  destruct (traverse as_atoms fatoms) as [e|ats] eqn:Hats; [discriminate|].
  exists ats. apply traverse_as_atoms. exact Hats.
Qed.

(** C2 (as amended): on a working pool that holds no configuration twice,
    with [bolt_frac >= 0] and [bolt_max_num >= 0], a call of
    [boltzhist_CUR] that returns has run its sampling loop to the end;
    every drawn configuration was deleted from the working pool when it
    was drawn, so the drawn and the remaining entries partition the pool;
    the returned configurations are drawn ones, no one twice, and at most
    [min(round(bolt_frac * len(pool)), bolt_max_num)]. *)
Theorem boltzhist_CUR_samples_without_replacement
    (first : item) (rest : list item) (isol_es : option (gmap Z Q))
    (bolt_frac : Q) (bolt_max_num cur_num : Z) (kernel_exp kT : Q)
    (energy_label : string) (P : option (list Q)) (descriptor : option string)
    (g g' : rng) (out : list item) :
  choice_without_replacement choice →
  NoDup (working_pool (first :: rest) first) →
  (0 <= bolt_frac)%Q →
  0 ≤ bolt_max_num →
  snd (boltzhist_CUR GPa np_exp uniform choice leverage_scores (first :: rest) isol_es
         bolt_frac bolt_max_num cur_num kernel_exp kT energy_label P descriptor g)
  = inr (Some out, g') →
  ∃ enthalpies config_prob selected remaining g1,
    enthalpies_of GPa isol_es P (working_pool (first :: rest) first) = inr enthalpies
    ∧ config_weights np_exp kT enthalpies = inr config_prob
    ∧ draw_loop uniform
        (Z.to_nat (select_num_of bolt_frac bolt_max_num (working_pool (first :: rest) first)))
        config_prob (working_pool (first :: rest) first) enthalpies [] g
      = (remaining, inr (selected, g1))
    ∧ working_pool (first :: rest) first ≡ₚ selected ++ remaining
    ∧ (∀ x, x ∈ selected → x ∉ remaining)
    ∧ out ⊆ selected
    ∧ NoDup out
    ∧ Z.of_nat (length out)
      ≤ Z.min (py_round (bolt_frac
                         * inject_Z (Z.of_nat (length (working_pool (first :: rest) first)))))
              bolt_max_num.
Proof.
  intros Hchoice Hnd Hfrac Hmax Hrun.
  pose proof (select_num_of_nonneg bolt_frac bolt_max_num
                (working_pool (first :: rest) first) Hfrac Hmax) as Hnonneg.
  rewrite <- select_num_of_min.
  unfold boltzhist_CUR in Hrun.
  set (fatoms := working_pool (first :: rest) first) in *.
  set (select_num := select_num_of bolt_frac bolt_max_num fatoms) in *.
  destruct (enthalpies_of GPa isol_es P fatoms) as [e|enthalpies] eqn:Henth;
    [discriminate|].
  cbn [bind] in Hrun.
  destruct (config_weights np_exp kT enthalpies) as [e|config_prob] eqn:Hprob;
    [discriminate|].
  cbn [bind ret] in Hrun.
  destruct (draw_loop uniform (Z.to_nat select_num) config_prob fatoms enthalpies [] g)
    as [remaining drawn] eqn:Hloop.
  cbn [snd] in Hrun.
  destruct drawn as [e|[selected g1]]; [discriminate|]. cbn [bind] in Hrun.
  pose proof (draw_loop_returns _ _ _ _ _ _ _ _ _ Hloop) as (drawn & Hsel & Hlen & Hperm & _).
  cbn [app] in Hsel. subst drawn.
  assert (Hnd' : NoDup (selected ++ remaining)) by (rewrite <- Hperm; exact Hnd).
  apply NoDup_app in Hnd' as (Hnd_sel & Hdisj & _).
  exists enthalpies, config_prob, selected, remaining, g1.
  do 5 (split; [first [reflexivity | assumption]|]).
  unfold cur_stage in Hrun.
  destruct (Z.ltb_spec cur_num select_num) as [Hcur|Hcur].
  - destruct (enthalpies_of_configs _ _ _ _ Henth) as [ats Hats].
    destruct (all_configs selected) as [picked_from Hsel].
    { intros x Hx. assert (Hin : x ∈ fatoms).
      { rewrite Hperm. apply elem_of_app. left. exact Hx. }
      rewrite Hats in Hin. apply list_elem_of_fmap in Hin as (a & -> & _). eauto. }
    subst selected.
    destruct (cur_select_distinct _ _ _ _ _ _ _ Hchoice Hnd_sel Hrun)
      as [->|(picked & [= <-] & Hnd_out & Hsub & Hlen_out)].
    { cbn in Hrun. discriminate. }
    repeat split; [exact Hsub|exact Hnd_out|]. lia.
  - injection Hrun as <- <-. repeat split; [reflexivity|exact Hnd_sel|]. lia.
Qed.



(** *** The enthalpy proxy *)

Lemma traverse_Forall2 {A B : Type} (f : A → res B) (l : list A) (ys : list B) :
  traverse f l = inr ys → Forall2 (fun x y => f x = inr y) l ys.
Proof.
  revert ys. induction l as [|x l IH]; intros ys H; cbn [traverse] in H.
  - injection H as <-. constructor.
  - destruct (f x) as [e|y] eqn:Hx; cbn in H; [discriminate|].
    destruct (traverse f l) as [e|ys']; cbn in H; [discriminate|].
    injection H as <-. constructor; [exact Hx|]. apply IH. reflexivity.
Qed.

Lemma enthalpy_loop_lookup (ats : list Atoms) (ener_relative ps : list Q) :
  ∀ (i : nat) (hs : list Q),
    enthalpy_loop GPa i ats ener_relative ps = inr hs →
    length hs = length ats
    ∧ ∀ k a, ats !! k = Some a →
        ∃ er p, ener_relative !! (i + k)%nat = Some er ∧ ps !! (i + k)%nat = Some p
                ∧ hs !! k = Some (enthalpy_of GPa er a p).
Proof.
  induction ats as [|at_ ats IH]; intros i hs H; cbn [enthalpy_loop] in H.
  - injection H as <-. split; [reflexivity|]. intros k a Hk. inversion Hk.
  - unfold index in H.
    destruct (ener_relative !! i) as [er|] eqn:Her; cbn in H; [|discriminate].
    destruct (ps !! i) as [p|] eqn:Hp; cbn in H; [|discriminate].
    destruct (enthalpy_loop GPa (S i) ats ener_relative ps) as [e|hs'] eqn:Hrest;
      cbn in H; [discriminate|].
    injection H as <-. destruct (IH _ _ Hrest) as [Hlen Hall].
    split; [simpl; congruence|].
    intros [|k] a Hk.
    + injection Hk as <-. exists er, p. rewrite Nat.add_0_r. auto.
    + destruct (Hall k a Hk) as (er' & p' & H1 & H2 & H3).
      exists er', p'. rewrite Nat.add_succ_r. auto.
Qed.

(** C1: the relative energy is divided by the number of atoms twice, when
    [ener_relative] is built (line 1100) and once more together with the
    pressure term (line 1102).  The proxy of a configuration of [n] atoms
    is [(E - isolated) / n^2 + V * P * GPa / n]; at zero pressure, for
    more than one atom and an energy that is not that of the isolated
    atoms, it is the value of the specification's formula divided by [n],
    and not that value. *)
Theorem enthalpy_proxy_energy_divided_twice
    (isol_es : option (gmap Z Q)) (P : option (list Q)) (fatoms : list item)
    (enthalpies : list Q) (i : nat) (a : Atoms) (E : Q) (isolated : list Q) :
  enthalpies_of GPa isol_es P fatoms = inr enthalpies →
  fatoms !! i = Some (Config a) →
  info a !! "energy" = Some E →
  traverse (isol_getitem isol_es) (atomic_numbers a) = inr isolated →
  ∃ ps p H,
    pressures P fatoms = inr ps
    ∧ ps !! i = Some p
    ∧ enthalpies !! i = Some H
    ∧ (H == (E - Qsum isolated) / (len a * len a) + volume a * p * GPa / len a)%Q
    ∧ ((p == 0)%Q → (1 < length (atomic_numbers a))%nat → ¬ (E - Qsum isolated == 0)%Q →
       (H == spec_enthalpy_proxy E (Qsum isolated) (len a) (volume a) p / len a)%Q
       ∧ ¬ (H == spec_enthalpy_proxy E (Qsum isolated) (len a) (volume a) p)%Q).
Proof.
  unfold enthalpies_of. intros Hrun Hi HE Hisolated.
  destruct (pressures P fatoms) as [e|ps]; [discriminate|]. cbn [bind] in Hrun.
  destruct (traverse as_atoms fatoms) as [e|ats] eqn:Hats; [discriminate|].
  cbn [bind] in Hrun.
  destruct (traverse (ener_relative_of isol_es) ats) as [e|ers] eqn:Hers; [discriminate|].
  cbn [bind] in Hrun.
  apply traverse_as_atoms in Hats. subst fatoms.
  apply traverse_Forall2 in Hers.
  destruct (enthalpy_loop_lookup _ _ _ _ _ Hrun) as [_ Hall].
  rewrite list_lookup_fmap in Hi.
  destruct (ats !! i) as [a'|] eqn:Ha; [|discriminate]. injection Hi as ->.
  destruct (Hall i a Ha) as (er & p & Her & Hp & Hh). cbn [Nat.add] in Her, Hp.
  destruct (Forall2_lookup_l _ _ _ _ _ Hers Ha) as (er' & Her' & Hrel).
  rewrite Her in Her'. injection Her' as <-.
  unfold ener_relative_of, getitem in Hrel. rewrite HE in Hrel. cbn [bind] in Hrel.
  rewrite Hisolated in Hrel. cbn [bind] in Hrel.
  destruct (Nat.eqb_spec (length (atomic_numbers a)) 0) as [|Hatoms]; [discriminate|].
  injection Hrel as <-.
  assert (Hn : ¬ (len a == 0)%Q).
  { unfold len, Qeq. cbn. lia. }
  exists ps, p, (enthalpy_of GPa ((E - Qsum isolated) / len a) a p).
  do 3 (split; [first [reflexivity | assumption]|]).
  unfold enthalpy_of, spec_enthalpy_proxy.
  set (d := (E - Qsum isolated)%Q). set (n := len a) in *. set (V := volume a).
  split; [field; exact Hn|].
  intros Hzero Hmany Hd. rewrite Hzero. split; [field; exact Hn|].
  intros Heq. apply Hd.
  assert (E1 : (d == ((d / n + V * 0 * GPa) / n) * (n * n))%Q) by (field; exact Hn).
  rewrite Heq in E1.
  assert (E3 : ((d / n + V * 0 / n) * (n * n) == d * n)%Q) by (field; exact Hn).
  rewrite E3 in E1.
  assert (E2 : (d * (n - 1) == 0)%Q).
  { transitivity (d * n - d)%Q; [ring|]. rewrite <- E1. ring. }
  apply Qmult_integral in E2 as [E2|E2]; [exact E2|exfalso].
  unfold n, len, Qeq in E2. cbn in E2. lia.
Qed.

End SelectionFacts.

(** *** The samplers at concrete pools *)

Lemma example_choice_without_replacement :
  Selection.choice_without_replacement SelectionExamples.choice.
Proof.
  intros g g' n size p drawn. unfold SelectionExamples.choice.
  destruct (_ || _); [discriminate|]. intros [= <- <-].
  split; [apply NoDup_seq|apply length_seq].
Qed.

Lemma example_pool_NoDup :
  NoDup [Selection.Config SelectionExamples.si2; Selection.Config SelectionExamples.si1].
Proof.
  apply NoDup_cons. split; [|apply NoDup_singleton].
  intros H. apply list_elem_of_singleton in H. discriminate H.
Qed.

(** The pool [si2, si1]: the two-atom cell, 4 above its isolated atoms at
    zero pressure, gets the proxy 1 where the formula gives 2. *)
Lemma enthalpy_proxy_energy_divided_twice_witness :
  ∃ H rest,
    Selection.enthalpies_of SelectionExamples.GPa (Some SelectionExamples.isol_es) None
      [Selection.Config SelectionExamples.si2; Selection.Config SelectionExamples.si1]
    = inr (H :: rest)
    ∧ (H == 1)%Q
    ∧ (Selection.spec_enthalpy_proxy 4 (Selection.Qsum [0; 0]%Q)
         (Selection.len SelectionExamples.si2) (Selection.volume SelectionExamples.si2) 0
       == 2)%Q
    ∧ ¬ (H == Selection.spec_enthalpy_proxy 4 (Selection.Qsum [0; 0]%Q)
              (Selection.len SelectionExamples.si2)
              (Selection.volume SelectionExamples.si2) 0)%Q.
Proof.
  eexists _, _. split; [vm_compute; reflexivity|].
  split; [reflexivity|]. split; [reflexivity|].
  destruct (enthalpy_proxy_energy_divided_twice SelectionExamples.GPa
              (Some SelectionExamples.isol_es) None
              [Selection.Config SelectionExamples.si2; Selection.Config SelectionExamples.si1]
              [(4000000000000000000 # 4000000000000000000)%Q;
               (124830182517665160 # 1000000000000000000)%Q]
              0 SelectionExamples.si2 4%Q [0; 0]%Q)
    as (ps & p & H & Hps & Hp & HH & _ & Hdiv);
    [vm_compute; reflexivity|reflexivity|reflexivity|reflexivity|].
  injection Hps as <-. injection Hp as <-. injection HH as <-.
  apply Hdiv; [reflexivity|vm_compute; lia|vm_compute; discriminate].
Defined.

(** A pool whose second configuration has no pressure entry. *)
Lemma boltzhist_CUR_missing_pressure_witness :
  SelectionExamples.si_no_pressure.(Selection.info) !! "pressure" = None
  ∧ Selection.boltzhist_CUR SelectionExamples.GPa SelectionExamples.exp_not_called
      SelectionExamples.uniform SelectionExamples.choice SelectionExamples.leverage_scores
      [Selection.Config SelectionExamples.si2; Selection.Config SelectionExamples.si_no_pressure]
      (Some SelectionExamples.isol_es) (1 # 2) 3000 100 4 0 "energy" None None [(1 # 4)%Q]
    = ([Selection.Config SelectionExamples.si2; Selection.Config SelectionExamples.si_no_pressure],
       inl (RuntimeError "No pressures, so can't Boltzmann weight")).
Proof.
  split; [reflexivity|].
  apply (boltzhist_CUR_missing_pressure_raises SelectionExamples.GPa
           SelectionExamples.exp_not_called SelectionExamples.uniform
           SelectionExamples.choice SelectionExamples.leverage_scores
           (Selection.Config SelectionExamples.si2)
           [Selection.Config SelectionExamples.si_no_pressure]
           SelectionExamples.si_no_pressure).
  - right. left.
  - reflexivity.
Defined.



(** Half of a pool of two: one configuration is drawn and returned. *)
Lemma boltzhist_CUR_samples_without_replacement_witness :
  NoDup [Selection.Config SelectionExamples.si2; Selection.Config SelectionExamples.si1]
  ∧ snd (Selection.boltzhist_CUR SelectionExamples.GPa SelectionExamples.exp_not_called
           SelectionExamples.uniform SelectionExamples.choice
           SelectionExamples.leverage_scores
           [Selection.Config SelectionExamples.si2; Selection.Config SelectionExamples.si1]
           (Some SelectionExamples.isol_es) (1 # 2) 3000 100 4 0 "energy" None None
           [(1 # 4)%Q])
    = inr (Some [Selection.Config SelectionExamples.si2], [])
  ∧ NoDup [Selection.Config SelectionExamples.si2]
  ∧ Z.of_nat (length [Selection.Config SelectionExamples.si2])
    ≤ Z.min (Selection.py_round ((1 # 2) * inject_Z 2)) 3000.
Proof.
  split; [exact example_pool_NoDup|].
  split; [vm_compute; reflexivity|].
  destruct (boltzhist_CUR_samples_without_replacement SelectionExamples.GPa
              SelectionExamples.exp_not_called SelectionExamples.uniform
              SelectionExamples.choice SelectionExamples.leverage_scores
              (Selection.Config SelectionExamples.si2)
              [Selection.Config SelectionExamples.si1]
              (Some SelectionExamples.isol_es) (1 # 2) 3000 100 4 0 "energy" None None
              [(1 # 4)%Q] [] [Selection.Config SelectionExamples.si2]
              example_choice_without_replacement example_pool_NoDup)
    as (enthalpies & config_prob & selected & remaining & g1 & _ & _ & _ & _ & _ & _ & Hnd & Hlen).
  - vm_compute. discriminate.
  - lia.
  - vm_compute. reflexivity.
  - split; [exact Hnd|exact Hlen].
Defined.

(** C2, the claim as stated for every invocation: a pool that holds the
    same configuration twice returns it twice, and with
    [bolt_max_num = -1] the empty selection that is returned has more
    entries than the bound [min(round(bolt_frac * len(pool)), bolt_max_num)
    = -1]. *)
Lemma boltzhist_CUR_claim_needs_distinct_pool_and_counts :
  (snd (Selection.boltzhist_CUR SelectionExamples.GPa SelectionExamples.exp_not_called
          SelectionExamples.uniform SelectionExamples.choice
          SelectionExamples.leverage_scores
          [Selection.Config SelectionExamples.si1; Selection.Config SelectionExamples.si1]
          (Some SelectionExamples.isol_es) 1 3000 100 4 0 "energy" None None
          [(1 # 4)%Q; (1 # 4)%Q])
   = inr (Some [Selection.Config SelectionExamples.si1; Selection.Config SelectionExamples.si1],
          [])
   ∧ ¬ NoDup [Selection.Config SelectionExamples.si1; Selection.Config SelectionExamples.si1])
  ∧ (snd (Selection.boltzhist_CUR SelectionExamples.GPa SelectionExamples.exp_not_called
            SelectionExamples.uniform SelectionExamples.choice
            SelectionExamples.leverage_scores
            [Selection.Config SelectionExamples.si2; Selection.Config SelectionExamples.si1]
            (Some SelectionExamples.isol_es) (1 # 2) (-1) 100 4 0 "energy" None None
            [(1 # 4)%Q])
     = inr (Some [], [(1 # 4)%Q])
     ∧ ¬ (Z.of_nat (length (@nil Selection.item))
          ≤ Z.min (Selection.py_round ((1 # 2) * inject_Z 2)) (-1))).
Proof.
  split; split.
  - vm_compute. reflexivity.
  - intros Hnd. apply NoDup_cons in Hnd as [Hnotin _]. apply Hnotin. left.
  - vm_compute. reflexivity.
  - vm_compute. intros H. apply H. reflexivity.
Qed.

(** ** Geometry perturbation *)

Section GeometryFacts.

Import Geometry.

Open Scope Q_scope.

Lemma det_scale (k : Q) (m : mat3) : det (mat_scale k m) == k * k * k * det m.
Proof. destruct m as [[[[a b] c] [[d e] f]] [[g h] i]]. cbn. ring. Qed.

Lemma det_scale_nonzero (k : Q) (m : mat3) :
  ¬ k == 0 → ¬ det m == 0 → ¬ det (mat_scale k m) == 0.
Proof.
  intros Hk Hm. rewrite det_scale. intros H.
  apply Qmult_integral in H as [H|H]; [|contradiction].
  apply Qmult_integral in H as [H|H]; [|contradiction].
  apply Qmult_integral in H as [H|H]; contradiction.
Qed.

Lemma Qeq_bool_nonzero (x : Q) : ¬ x == 0 → Qeq_bool x 0 = false.
Proof.
  intros H. destruct (Qeq_bool x 0) eqn:E; [|reflexivity].
  apply Qeq_bool_iff in E. contradiction.
Qed.

(** Scaling an invertible cell by a non-zero factor, with the atoms scaled
    along, leaves the fractional coordinates where they were: going to
    Cartesian positions, through ase's [solve], and back. *)
Lemma frac_coords_fixed (k : Q) (L : mat3) (x : vec3) :
  ¬ k == 0 → ¬ det L == 0 →
  vec_eq (vec_mat (vec_mat (vec_mat x L) (mat_mul (inv L) (mat_scale k L)))
            (inv (mat_scale k L))) x.
Proof.
  intros Hk HL. pose proof (det_scale_nonzero k L Hk HL) as HkL.
  destruct L as [[[[a b] c] [[d e] f]] [[g h] i]], x as [[x1 x2] x3].
  cbn in *.
  repeat split; field; split; assumption.
Qed.

Lemma mat_scale_one (k : Q) (m : mat3) : k == 1 → mat_eq (mat_scale k m) m.
Proof.
  intros Hk. destruct m as [[[[a b] c] [[d e] f]] [[g h] i]]. cbn.
  repeat split; rewrite Hk; ring.
Qed.

(** C10: for a structure with an invertible lattice,
    [scale_cell(s, volume_custom_scale_factors=[1.0])] returns one
    structure, with the lattice, the species and the fractional positions
    of [s].  The arithmetic is exact, and [1.0 ** (1 / 3)] is 1. *)
Theorem scale_cell_neutral_is_identity (np_arange : Q → Q → Q → res (list Q))
    (cbrt : Q → Q) (s : QStructure) (n_structures : Z) :
  cbrt 1 == 1 →
  ¬ det (lattice s) == 0 →
  ∃ s', scale_cell (B := QBackend) np_arange cbrt s None n_structures (Some [1]) = inr [s']
        ∧ same_structure s' s.
Proof.
  intros Hone Hdet.
  assert (Hk : ¬ cbrt 1 == 0) by (rewrite Hone; discriminate).
  pose proof (det_scale_nonzero _ _ Hk Hdet) as HkL.
  unfold scale_cell, scale_factors_defined.
  cbn [bind ret traverse get_atoms get_cell cell_mul set_cell get_structure QBackend].
  unfold Q_set_cell, linalg_solve, linalg_inv. cbn [cell Q_get_atoms].
  rewrite (Qeq_bool_nonzero _ Hdet). cbn [bind ret].
  unfold Q_get_structure, linalg_inv. cbn [cell symbols positions].
  rewrite (Qeq_bool_nonzero _ HkL). cbn [bind ret].
  eexists. split; [reflexivity|].
  unfold same_structure. cbn [lattice species frac_coords].
  split; [apply mat_scale_one; exact Hone|]. split; [reflexivity|].
  unfold Q_get_atoms. cbn [positions]. rewrite !map_map.
  induction (frac_coords s) as [|x xs IH]; constructor.
  - apply frac_coords_fixed; assumption.
  - exact IH.
Qed.

(** C9: whatever the backend, the structures after the first are
    generated as by a call with the scale divided by 100: line 291 sits
    inside the outer loop, so the scale is divided by 100 once more for
    every structure generated.  For two atoms 2 apart in a cubic cell of
    edge 4, with [angle_percentage_scale=10], [n_structures=2] and a
    [random.randint] that answers the lower bound, the ranges handed to
    [random.randint] are 81..99 for the first structure and 89..90 for the
    second, whose angles become 89.  With [w_angle=[2]] on the cell with
    the angles 65, 90 and 115, gamma receives the value drawn from alpha's
    range 58..71, below the 103 that 10 percent of gamma allow. *)
Theorem random_vary_angle_scale_not_kept :
  (∀ (B : CellBackend) (A : AngleBackend B) (np_arange : Q → Q → Q → res (list Q))
     (cbrt : Q → Q) (rng : Type) (randint : rng → Z → Z → Z * rng) (atoms : Atoms)
     (min_distance : Q) (w_angle : list nat) (angle_max_attempts : Z) (remaining : nat)
     (angle_percentage_scale : Q) (g g' : rng) (out : list Structure),
     generate np_arange cbrt randint atoms min_distance w_angle angle_max_attempts
       (S remaining) angle_percentage_scale g = inr (out, g') →
     ∃ first rest g1,
       out = first :: rest
       ∧ generate np_arange cbrt randint atoms min_distance w_angle angle_max_attempts
           remaining (angle_percentage_scale / 100) g1 = inr (rest, g'))
  ∧ (∃ s1 s2 : GeometryExamples.row,
       random_vary_angle (A := GeometryExamples.RowAngles) GeometryExamples.arange_not_called
         GeometryExamples.cbrt_of_103 GeometryExamples.randint_lowest
         GeometryExamples.cubic_pair (3 # 2) 10 None 2 1000 []
       = inr ([s1; s2],
              [(81, 99); (81, 99); (81, 99); (89, 90); (89, 90); (89, 90)]%Z)
       ∧ drop 3 (GeometryExamples.cellpars s1) = [81; 81; 81]
       ∧ drop 3 (GeometryExamples.cellpars s2) = [89; 89; 89]
       ∧ py_int (90 * (1 - 10 / 100)) = 81%Z)
  ∧ (∃ s1 : GeometryExamples.row,
       random_vary_angle (A := GeometryExamples.RowAngles) GeometryExamples.arange_not_called
         GeometryExamples.cbrt_of_103 GeometryExamples.randint_lowest
         GeometryExamples.skew_pair (3 # 2) 10 (Some [2%nat]) 1 1000 []
       = inr ([s1], [(58, 71); (81, 99); (103, 126)]%Z)
       ∧ drop 3 (GeometryExamples.cellpars s1) = [65; 90; 58]
       ∧ py_int (115 * (1 - 10 / 100)) = 103%Z).
Proof.
  split; [|split].
  - intros B A np_arange cbrt rng randint atoms min_distance w_angle angle_max_attempts
      remaining scale g g' out H. cbn [generate] in H.
    destruct (get_structure _) as [e|unstretched]; [discriminate|]. cbn [bind] in H.
    destruct (scale_cell _ _ _ _ _ _) as [e|cells]; [discriminate|]. cbn [bind] in H.
    destruct (index cells 0) as [e|stretched]; [discriminate|]. cbn [bind] in H.
    destruct (index _ 3) as [e|alpha]; [discriminate|]. cbn [bind] in H.
    destruct (index _ 4) as [e|beta]; [discriminate|]. cbn [bind] in H.
    destruct (index _ 5) as [e|gamma]; [discriminate|]. cbn [bind] in H.
    destruct (attempt_loop _ _ _ _ _ _ _ _ _ _ _ _) as [e|[accepted g1]]; [discriminate|].
    cbn [bind] in H.
    destruct (generate _ _ _ _ _ _ _ _ _) as [e|[rest g2]] eqn:Hrest; [discriminate|].
    cbn [bind ret] in H. injection H as <- <-.
    exists accepted, rest, g1. split; [reflexivity|exact Hrest].
  - eexists _, _. split; [vm_compute; reflexivity|]. repeat split; vm_compute; reflexivity.
  - eexists. split; [vm_compute; reflexivity|]. split; vm_compute; reflexivity.
Qed.

End GeometryFacts.

(** Neutral scaling of two silicon sites in a cubic cell. *)
Lemma scale_cell_neutral_witness :
  (GeometryExamples.cbrt_at_one 1 == 1)%Q
  ∧ ¬ (Geometry.det (Geometry.lattice GeometryExamples.si_cubic) == 0)%Q
  ∧ ∃ s', Geometry.scale_cell (B := Geometry.QBackend) GeometryExamples.arange_not_called
            GeometryExamples.cbrt_at_one GeometryExamples.si_cubic None 10 (Some [1%Q])
          = inr [s']
          ∧ Geometry.same_structure s' GeometryExamples.si_cubic.
Proof.
  split; [reflexivity|]. split; [vm_compute; discriminate|].
  apply (scale_cell_neutral_is_identity GeometryExamples.arange_not_called
           GeometryExamples.cbrt_at_one GeometryExamples.si_cubic 10).
  - reflexivity.
  - vm_compute. discriminate.
Defined.

(** * Further properties of the code *)

(** ** Further properties: supercell search and k-point density *)

Section SupercellMore.

Import Supercell.

Context {Structure : Type} (abc : Structure → Q * Q * Q).
Context (cubic_supercell : cubic_args → Structure → option (Matrix3D * Z)).

Lemma attempt_within_bounds (s : Structure) (max_length : Q) (min_atoms max_atoms : Z)
    (step_size : Q) (minimum : Z) (orth f90 : bool) (m : Matrix3D) :
  attempt cubic_supercell s max_length min_atoms max_atoms step_size minimum orth f90
  = Some m →
  ∃ tm num_sites,
    cubic_supercell (CubicArgs minimum max_length min_atoms max_atoms step_size orth f90) s
    = Some (tm, num_sites)
    ∧ min_atoms ≤ num_sites ≤ max_atoms ∧ m = transpose tm.
Proof.
  unfold attempt. destruct (cubic_supercell _ _) as [[tm n]|]; [|discriminate].
  destruct (Z.leb_spec min_atoms n); [|discriminate].
  destruct (Z.leb_spec n max_atoms); [|discriminate].
  cbn. intros [= <-]. exists tm, n. auto.
Qed.

(** Entered with [fallback_min_length < min_length], the function returns
    a matrix: the transposed result of a search at [min_length] whose
    supercell has between [min_atoms] and [max_atoms] sites, or the
    diagonal fallback. *)
Theorem reduce_supercell_size_result
    (s : Structure) (min_length : Z) (max_length : Q) (fallback_min_length : Z)
    (min_atoms max_atoms : Z) (step_size : Q) :
  fallback_min_length < min_length →
  ∃ m, reduce_supercell_size abc cubic_supercell s min_length max_length
         fallback_min_length min_atoms max_atoms step_size = Some m
       ∧ (m = diagonal_fallback abc s max_length
          ∨ ∃ orth f90 tm num_sites,
              cubic_supercell
                (CubicArgs min_length max_length min_atoms max_atoms step_size orth f90) s
              = Some (tm, num_sites)
              ∧ min_atoms ≤ num_sites ≤ max_atoms ∧ m = transpose tm).
Proof.
  intros Hlt.
  destruct (reduce_supercell_size_first_pass abc cubic_supercell s min_length max_length
              fallback_min_length min_atoms max_atoms step_size Hlt) as [-> _].
  eexists. split; [reflexivity|].
  unfold tiers.
  destruct (attempt _ _ _ _ _ _ _ true true) as [m|] eqn:H1.
  { right. apply attempt_within_bounds in H1 as (tm & n & ? & ? & ?). eauto 10. }
  destruct (attempt _ _ _ _ _ _ _ true false) as [m|] eqn:H2.
  { right. apply attempt_within_bounds in H2 as (tm & n & ? & ? & ?). eauto 10. }
  destruct (attempt _ _ _ _ _ _ _ false false) as [m|] eqn:H3.
  { right. apply attempt_within_bounds in H3 as (tm & n & ? & ? & ?). eauto 10. }
  left. reflexivity.
Qed.

Lemma factor_spec (max_length x : Q) :
  (0 < x)%Q →
  1 ≤ factor max_length x
  ∧ (max_length < inject_Z (factor max_length x + 1) * x)%Q
  ∧ ((x <= max_length)%Q → (inject_Z (factor max_length x) * x <= max_length)%Q)
  ∧ ((max_length < x)%Q → factor max_length x = 1).
Proof.
  intros Hx. unfold factor.
  pose proof (Qfloor_le (max_length / x)) as Hfl.
  pose proof (Qlt_floor (max_length / x)) as Hlt.
  assert (Hnz : ¬ (x == 0)%Q) by (intros E; rewrite E in Hx; discriminate).
  split; [lia|]. split; [|split].
  - apply Qlt_le_trans with (inject_Z (Qfloor (max_length / x) + 1) * x)%Q.
    + apply (Qmult_lt_r _ _ x Hx) in Hlt.
      assert (E : (max_length / x * x == max_length)%Q) by (field; exact Hnz).
      rewrite E in Hlt. exact Hlt.
    + apply Qmult_le_compat_r; [|apply Qlt_le_weak; exact Hx].
      rewrite <- Zle_Qle. lia.
  - intros Hle.
    assert (H1 : 1 ≤ Qfloor (max_length / x)).
    { change 1 with (Qfloor 1). apply Qfloor_resp_le.
      apply Qle_shift_div_l; [exact Hx|]. rewrite Qmult_1_l. exact Hle. }
    rewrite Z.max_l by lia.
    apply (Qmult_le_r _ _ x Hx) in Hfl.
    assert (E : (max_length / x * x == max_length)%Q) by (field; exact Hnz).
    rewrite E in Hfl. exact Hfl.
  - intros Hgt.
    assert (H1 : Qfloor (max_length / x) < 1).
    { apply Z.lt_le_trans with (Qfloor 1); [|reflexivity].
      destruct (Z.lt_ge_cases (Qfloor (max_length / x)) 1) as [?|Hge]; [assumption|].
      exfalso. rewrite Zle_Qle in Hge.
      pose proof (Qle_trans _ _ _ Hge Hfl) as H.
      apply (Qmult_le_r _ _ x Hx) in H.
      assert (E : (max_length / x * x == max_length)%Q) by (field; exact Hnz).
      rewrite E in H. rewrite Qmult_1_l in H.
      apply (Qlt_irrefl x). eapply Qle_lt_trans; eassumption. }
    lia.
Qed.

(** The diagonal fallback of a cell with positive edge lengths: a diagonal
    matrix of integers that are at least 1 (so it is not singular), each
    the largest multiple that keeps the edge within [max_length] when the
    edge itself is. *)
Theorem diagonal_fallback_spec (s : Structure) (max_length a b c : Q) :
  abc s = (a, b, c) →
  (0 < a)%Q → (0 < b)%Q → (0 < c)%Q →
  ∃ fa fb fc,
    diagonal_fallback abc s max_length = ((fa, 0, 0), (0, fb, 0), (0, 0, fc))
    ∧ 1 ≤ fa ∧ 1 ≤ fb ∧ 1 ≤ fc
    ∧ (max_length < inject_Z (fa + 1) * a)%Q
    ∧ (max_length < inject_Z (fb + 1) * b)%Q
    ∧ (max_length < inject_Z (fc + 1) * c)%Q
    ∧ ((a <= max_length)%Q → (inject_Z fa * a <= max_length)%Q)
    ∧ ((b <= max_length)%Q → (inject_Z fb * b <= max_length)%Q)
    ∧ ((c <= max_length)%Q → (inject_Z fc * c <= max_length)%Q).
Proof.
  intros Habc Ha Hb Hc. unfold diagonal_fallback. rewrite Habc. cbn [transpose].
  destruct (factor_spec max_length a Ha) as (? & ? & ? & _).
  destruct (factor_spec max_length b Hb) as (? & ? & ? & _).
  destruct (factor_spec max_length c Hc) as (? & ? & ? & _).
  exists (factor max_length a), (factor max_length b), (factor max_length c).
  repeat split; assumption.
Qed.

End SupercellMore.

Section PhononMakerFacts.

Import PhononMaker.

Lemma py_round_range (x : Q) (lo hi : Z) :
  (inject_Z lo <= x)%Q → (x <= inject_Z hi)%Q → lo ≤ Selection.py_round x ≤ hi.
Proof.
  intros Hlo Hhi.
  assert (H1 : lo ≤ Qfloor x).
  { rewrite <- (Qfloor_Z lo). apply Qfloor_resp_le. exact Hlo. }
  assert (H2 : Qfloor x ≤ hi).
  { rewrite <- (Qfloor_Z hi). apply Qfloor_resp_le. exact Hhi. }
  unfold Selection.py_round.
  destruct (Z.eq_dec (Qfloor x) hi) as [E|E].
  - assert (Hr : (x - inject_Z (Qfloor x) <= 0)%Q).
    { rewrite E. apply (Qplus_le_l _ _ (inject_Z hi)). ring_simplify. exact Hhi. }
    destruct (Qcompare_spec (x - inject_Z (Qfloor x)) (1 # 2)) as [H|H|H].
    + rewrite H in Hr. exfalso. apply Hr. reflexivity.
    + lia.
    + exfalso. apply (Qlt_irrefl (1 # 2)). eapply Qlt_le_trans; [exact H|].
      eapply Qle_trans; [exact Hr|]. discriminate.
  - destruct (Qcompare _ _); [destruct (Z.even _)| |]; lia.
Qed.

(** For a lattice parameter above 10 the maker gets a k-point setting with
    the single entry [reciprocal_density], between 50 and 200; the name of
    the maker is kept. *)
Theorem update_phonon_displacement_maker_density (lattice : Q)
    (maker : PhononDisplacementMaker) :
  (10 < lattice)%Q →
  ∃ density,
    update_phonon_displacement_maker lattice maker
    = MkMaker (maker_name maker) {[ "reciprocal_density" := density ]}
    ∧ (50 ≤ density ≤ 200)%Z
    ∧ ((20 <= lattice)%Q → density = 50%Z).
Proof.
  intros Hgt. unfold update_phonon_displacement_maker.
  assert (H10 : Qle_bool lattice 10 = false).
  { destruct (Qle_bool lattice 10) eqn:E; [|reflexivity].
    apply Qle_bool_iff in E. exfalso. apply (Qlt_irrefl 10).
    eapply Qlt_le_trans; eassumption. }
  rewrite H10. cbn [negb].
  destruct (Qle_bool lattice 20) eqn:H20; cbn [negb].
  - apply Qle_bool_iff in H20.
    pose proof (py_round_range lattice 10 20 (Qlt_le_weak _ _ Hgt) H20) as Hr.
    eexists. split; [reflexivity|]. split; [lia|].
    intros Hge.
    pose proof (py_round_range lattice 20 20 Hge H20). lia.
  - eexists. split; [reflexivity|]. split; [lia|]. reflexivity.
Qed.

(** Up to 10 the maker is returned as it came. *)
Lemma update_phonon_displacement_maker_small (lattice : Q)
    (maker : PhononDisplacementMaker) :
  (lattice <= 10)%Q → update_phonon_displacement_maker lattice maker = maker.
Proof.
  intros Hle. unfold update_phonon_displacement_maker.
  apply Qle_bool_iff in Hle. rewrite Hle. reflexivity.
Qed.

End PhononMakerFacts.

Lemma reduce_supercell_size_result_witness :
  12 < 18
  ∧ ∃ m, Supercell.reduce_supercell_size SupercellExamples.cubic4
           SupercellExamples.finds_at_17 tt 18 (22 # 1) 12 100 500 (1 # 1) = Some m.
Proof.
  split; [lia|].
  destruct (reduce_supercell_size_result SupercellExamples.cubic4
              SupercellExamples.finds_at_17 tt 18 (22 # 1) 12 100 500 (1 # 1))
    as (m & Hm & _); [lia|].
  exists m. exact Hm.
Defined.

Lemma diagonal_fallback_spec_witness :
  ∃ fa fb fc,
    Supercell.diagonal_fallback SupercellExamples.cubic4 tt (22 # 1)
    = ((fa, 0, 0), (0, fb, 0), (0, 0, fc)) ∧ 1 ≤ fa ∧ 1 ≤ fb ∧ 1 ≤ fc.
Proof.
  destruct (diagonal_fallback_spec SupercellExamples.cubic4 tt (22 # 1)
              (4 # 1) (4 # 1) (4 # 1) eq_refl eq_refl eq_refl eq_refl)
    as (fa & fb & fc & H & Ha & Hb & Hc & _).
  exists fa, fb, fc. auto.
Defined.

Lemma update_phonon_displacement_maker_density_witness :
  (10 < 15)%Q
  ∧ ∃ density,
      PhononMaker.update_phonon_displacement_maker 15 (PhononMaker.MkMaker "phonon" ∅)
      = PhononMaker.MkMaker "phonon" {[ "reciprocal_density" := density ]}
      ∧ (50 ≤ density ≤ 200)%Z.
Proof.
  split; [reflexivity|].
  destruct (update_phonon_displacement_maker_density 15 (PhononMaker.MkMaker "phonon" ∅))
    as (d & Hd & Hr & _); [reflexivity|].
  exists d. auto.
Defined.

(** ** Further properties: geometry perturbation *)

Section GeometryMore.

Import Geometry.

Open Scope Q_scope.

(** [scale_cell] on a structure with an invertible lattice, for factors
    whose cube roots are not zero: one structure per scale factor, in
    order, with the lattice multiplied by the cube root of the factor (so
    the cell volume by its cube), the species and the fractional
    coordinates unchanged. *)
Theorem scale_cell_scales_lattice (np_arange : Q → Q → Q → res (list Q))
    (cbrt : Q → Q) (s : QStructure)
    (volume_scale_factor_range : option (list Q)) (n_structures : Z)
    (volume_custom_scale_factors : option (list Q)) (factors : list Q) :
  scale_factors_defined np_arange volume_scale_factor_range n_structures
    volume_custom_scale_factors = inr factors →
  ¬ det (lattice s) == 0 →
  Forall (fun sf => ¬ cbrt sf == 0) factors →
  ∃ out,
    scale_cell (B := QBackend) np_arange cbrt s volume_scale_factor_range n_structures
      volume_custom_scale_factors = inr out
    ∧ Forall2
        (fun sf s' =>
           lattice s' = mat_scale (cbrt sf) (lattice s)
           ∧ det (lattice s') == cbrt sf * cbrt sf * cbrt sf * det (lattice s)
           ∧ species s' = species s
           ∧ Forall2 vec_eq (frac_coords s') (frac_coords s))
        factors out.
Proof.
  intros Hfactors Hdet Hall. unfold scale_cell. rewrite Hfactors. cbn [bind].
  clear Hfactors.
  induction Hall as [|sf factors Hsf Hall IH].
  - exists []. split; [reflexivity|constructor].
  - destruct IH as (out & Hout & Hspec).
    pose proof (det_scale_nonzero _ _ Hsf Hdet) as HkL.
    cbn [traverse]. rewrite Hout.
    cbn [bind ret get_atoms get_cell cell_mul set_cell get_structure QBackend].
    unfold Q_set_cell, linalg_solve, linalg_inv. cbn [cell Q_get_atoms].
    rewrite (Qeq_bool_nonzero _ Hdet). cbn [bind ret].
    unfold Q_get_structure, linalg_inv. cbn [cell symbols positions].
    rewrite (Qeq_bool_nonzero _ HkL). cbn [bind ret].
    eexists. split; [reflexivity|]. constructor; [|exact Hspec].
    cbn [lattice species frac_coords].
    split; [reflexivity|]. split; [apply det_scale|]. split; [reflexivity|].
    unfold Q_get_atoms. cbn [positions]. rewrite !map_map.
    clear -Hsf Hdet. induction (frac_coords s) as [|x xs IHx]; constructor.
    + apply frac_coords_fixed; assumption.
    + exact IHx.
Qed.

Lemma Qmem_Qinsert (x y : Q) (l : list Q) :
  Qmem x (Qinsert y l) = Qeq_bool x y || Qmem x l.
Proof.
  induction l as [|z l IH]; [reflexivity|]. cbn [Qinsert].
  destruct (Qle_bool y z); [reflexivity|].
  unfold Qmem in *. cbn [existsb]. rewrite IH.
  destruct (Qeq_bool x y), (Qeq_bool x z); reflexivity.
Qed.

Lemma Qmem_Qsort (x : Q) (l : list Q) : Qmem x (Qsort l) = Qmem x l.
Proof.
  induction l as [|y l IH]; [reflexivity|].
  unfold Qsort in *. cbn [foldr]. rewrite Qmem_Qinsert, IH. reflexivity.
Qed.

Lemma length_Qinsert (y : Q) (l : list Q) : length (Qinsert y l) = S (length l).
Proof.
  induction l as [|z l IH]; [reflexivity|]. cbn [Qinsert].
  destruct (Qle_bool y z); cbn [length]; congruence.
Qed.

Lemma length_Qsort (l : list Q) : length (Qsort l) = length l.
Proof.
  induction l as [|y l IH]; [reflexivity|].
  unfold Qsort in *. cbn [foldr]. rewrite length_Qinsert, IH. reflexivity.
Qed.

Lemma Qmem_app (x : Q) (l k : list Q) : Qmem x (l ++ k) = Qmem x l || Qmem x k.
Proof. unfold Qmem. apply existsb_app. Qed.

(** With a range, the scale factors are the grid [np.arange] returned
    between the two bounds, completed by the neutral factor 1: 1 is
    always among them, every grid value is kept, nothing but 1 is added,
    and it is added (one entry more) only when the grid does not hold
    it. *)
Theorem scale_factors_defined_range (np_arange : Q → Q → Q → res (list Q))
    (range : list Q) (n_structures : Z) (custom : option (list Q)) (factors : list Q) :
  scale_factors_defined np_arange (Some range) n_structures custom = inr factors →
  ∃ lo hi grid,
    range !! 0%nat = Some lo ∧ range !! 1%nat = Some hi
    ∧ np_arange lo (hi + (hi - lo) / inject_Z (n_structures - 1))
        ((hi - lo) / inject_Z (n_structures - 1)) = inr grid
    ∧ Qmem 1 factors = true
    ∧ (∀ x, Qmem x grid = true → Qmem x factors = true)
    ∧ (∀ x, Qmem x factors = true → Qmem x grid = true ∨ x == 1)
    ∧ length factors = (if Qmem 1 grid then length grid else S (length grid)).
Proof.
  unfold scale_factors_defined, index.
  destruct (range !! 0%nat) as [lo|]; [|discriminate]. cbn [bind ret].
  destruct (range !! 1%nat) as [hi|]; [|discriminate]. cbn [bind ret].
  destruct (Z.eqb_spec (n_structures - 1) 0) as [|Hn]; [discriminate|].
  destruct (np_arange lo _ _) as [e|grid] eqn:Hgrid; [discriminate|]. cbn [bind].
  intros Hrun. exists lo, hi, grid.
  do 2 (split; [reflexivity|]). split; [exact Hgrid|].
  destruct (Qmem 1 grid) eqn:Hmem; injection Hrun as <-.
  - split; [exact Hmem|]. split; [auto|]. split; [auto|reflexivity].
  - split; [|split; [|split]].
    + rewrite Qmem_Qsort, Qmem_app. cbn. apply orb_true_r.
    + intros x Hx. rewrite Qmem_Qsort, Qmem_app, Hx. reflexivity.
    + intros x Hx. rewrite Qmem_Qsort, Qmem_app in Hx.
      apply orb_true_iff in Hx as [Hx|Hx]; [left; exact Hx|right].
      cbn in Hx. rewrite orb_false_r in Hx. apply Qeq_bool_iff. exact Hx.
    + rewrite length_Qsort, length_app. cbn. lia.
Qed.

Section Backend.

Context {B : CellBackend} {A : AngleBackend B}.
Context (np_arange : Q → Q → Q → res (list Q)) (cbrt : Q → Q).
Context {rng : Type} (randint : rng → Z → Z → Z * rng).

(** A check that answers [True] has looked at every atom of its list and
    found no distance below [min_distance]. *)
Lemma check_from_true (atoms : Atoms) (min_distance : Q) (todo : list nat) :
  check_from atoms min_distance todo = inr true →
  ∀ i : nat, i ∈ todo →
    Forall (fun distance => min_distance <= distance)
      (get_distances atoms i (filter (fun j : nat => j ≠ i) (seq 0 (num_atoms atoms)))).
Proof.
  induction todo as [|k todo IH]; intros Hrun i Hi; [inversion Hi|].
  cbn [check_from] in Hrun. unfold distances_to in Hrun.
  destruct (filter (fun j : nat => j ≠ k) (seq 0 (num_atoms atoms))) as [|j js] eqn:Hothers;
    [discriminate|].
  cbn [bind ret] in Hrun.
  destruct (too_close min_distance (get_distances atoms k (j :: js))) eqn:Hclose;
    [discriminate|].
  apply elem_of_cons in Hi as [->|Hi]; [|apply IH; assumption].
  rewrite Hothers. apply Forall_forall. intros d Hd.
  destruct (Qle_bool min_distance d) eqn:E; [apply Qle_bool_iff; exact E|].
  exfalso. apply not_true_iff_false in Hclose. apply Hclose.
  unfold too_close. apply existsb_exists. exists d.
  split; [apply list_elem_of_In; exact Hd|]. rewrite E. reflexivity.
Qed.

Lemma check_distances_true (structure : Structure) (min_distance : Q) :
  check_distances structure min_distance = inr true →
  ∀ i : nat, (i < num_atoms (get_atoms structure))%nat →
    Forall (fun distance => min_distance <= distance)
      (get_distances (get_atoms structure) i
         (filter (fun j : nat => j ≠ i) (seq 0 (num_atoms (get_atoms structure))))).
Proof.
  unfold check_distances. intros Hrun i Hi.
  apply (check_from_true _ _ _ Hrun). apply elem_of_seq.
  split; [apply Nat.le_0_l|exact Hi].
Qed.

(** On a structure of one atom the check cannot answer: the only atom has
    no other atom to measure to. *)
Lemma check_distances_single_atom (structure : Structure) (min_distance : Q) :
  num_atoms (get_atoms structure) = 1%nat →
  check_distances structure min_distance = inl ValueError.
Proof.
  unfold check_distances. intros Hone. rewrite Hone. cbn [seq check_from].
  rewrite Hone. reflexivity.
Qed.

Lemma attempt_loop_accepts (min_distance : Q) (w_angle : list nat)
    (alpha beta gamma min_scale max_scale : Q) (attempts_left : nat) :
  ∀ (atoms_copy : Atoms) (newcell : list Q) (g g' : rng) (accepted : Structure),
    attempt_loop randint min_distance w_angle alpha beta gamma min_scale max_scale
      attempts_left atoms_copy newcell g = inr (accepted, g') →
    check_distances accepted min_distance = inr true.
Proof.
  induction attempts_left as [|n IH]; intros atoms_copy newcell g g' accepted H;
    cbn [attempt_loop] in H; [discriminate|].
  destruct (py_randint randint g _ _) as [e|[new_alpha g1]]; [discriminate|]. cbn [bind] in H.
  destruct (py_randint randint g1 _ _) as [e|[new_beta g2]]; [discriminate|]. cbn [bind] in H.
  destruct (py_randint randint g2 _ _) as [e|[new_gamma g3]]; [discriminate|]. cbn [bind] in H.
  destruct (assign_angles _ _ _) as [e|newcell']; [discriminate|]. cbn [bind] in H.
  destruct (set_cellpar _ _) as [e|atoms']; [discriminate|]. cbn [bind] in H.
  destruct (get_structure atoms') as [e|candidate]; [discriminate|]. cbn [bind] in H.
  destruct (check_distances candidate min_distance) as [e|[|]] eqn:Hcheck;
    [discriminate| |]; cbn [bind] in H.
  - injection H as <- <-. exact Hcheck.
  - eapply IH. exact H.
Qed.

(** A call of [random_vary_angle] that returns hands back [n_structures]
    structures, and every one of them passes [check_distances] at the
    [min_distance] of the call: no atom of it has another atom nearer
    than [min_distance]. *)
Theorem random_vary_angle_distance_invariant (structure : Structure)
    (min_distance angle_percentage_scale : Q) (w_angle : option (list nat))
    (n_structures angle_max_attempts : Z) (g g' : rng) (out : list Structure) :
  random_vary_angle np_arange cbrt randint structure min_distance angle_percentage_scale
    w_angle n_structures angle_max_attempts g = inr (out, g') →
  length out = Z.to_nat n_structures
  ∧ Forall
      (fun s =>
         check_distances s min_distance = inr true
         ∧ ∀ i : nat, (i < num_atoms (get_atoms s))%nat →
             Forall (fun distance => min_distance <= distance)
               (get_distances (get_atoms s) i
                  (filter (fun j : nat => j ≠ i) (seq 0 (num_atoms (get_atoms s))))))
      out.
Proof.
  unfold random_vary_angle.
  generalize (Z.to_nat n_structures) as remaining.
  intros remaining. revert angle_percentage_scale g g' out.
  induction remaining as [|n IH]; intros scale g g' out H; cbn [generate] in H.
  - injection H as <- <-. split; [reflexivity|constructor].
  - destruct (get_structure _) as [e|unstretched]; [discriminate|]. cbn [bind] in H.
    destruct (scale_cell _ _ _ _ _ _) as [e|cells]; [discriminate|]. cbn [bind] in H.
    destruct (index cells 0) as [e|stretched]; [discriminate|]. cbn [bind] in H.
    destruct (index _ 3) as [e|alpha]; [discriminate|]. cbn [bind] in H.
    destruct (index _ 4) as [e|beta]; [discriminate|]. cbn [bind] in H.
    destruct (index _ 5) as [e|gamma]; [discriminate|]. cbn [bind] in H.
    destruct (attempt_loop _ _ _ _ _ _ _ _ _ _ _ _) as [e|[accepted g1]] eqn:Hloop;
      [discriminate|].
    cbn [bind] in H.
    destruct (generate _ _ _ _ _ _ _ _ _) as [e|[rest g2]] eqn:Hrest; [discriminate|].
    cbn [bind ret] in H. injection H as <- <-.
    apply IH in Hrest as [Hlen Hall]. apply attempt_loop_accepts in Hloop.
    split; [cbn; congruence|]. constructor; [|exact Hall].
    split; [exact Hloop|]. apply check_distances_true. exact Hloop.
Qed.

(** No attempt succeeds on atoms that are one atom, when the backend keeps
    the number of atoms. *)
Lemma attempt_loop_single_atom (min_distance : Q) (w_angle : list nat)
    (alpha beta gamma min_scale max_scale : Q) (atoms_copy : Atoms)
    (newcell : list Q) (g : rng) (attempts_left : nat) :
  (∀ a c a', set_cellpar a c = inr a' → num_atoms a' = num_atoms a) →
  (∀ a s, get_structure a = inr s → num_atoms (get_atoms s) = num_atoms a) →
  num_atoms atoms_copy = 1%nat →
  ∃ e, attempt_loop randint min_distance w_angle alpha beta gamma min_scale max_scale
         attempts_left atoms_copy newcell g = inl e.
Proof.
  intros Hset Hget Hone. destruct attempts_left as [|n]; cbn [attempt_loop]; [eauto|].
  destruct (py_randint randint g _ _) as [e|[new_alpha g1]]; [eauto|]. cbn [bind].
  destruct (py_randint randint g1 _ _) as [e|[new_beta g2]]; [eauto|]. cbn [bind].
  destruct (py_randint randint g2 _ _) as [e|[new_gamma g3]]; [eauto|]. cbn [bind].
  destruct (assign_angles _ _ _) as [e|newcell']; [eauto|]. cbn [bind].
  destruct (set_cellpar _ _) as [e|atoms'] eqn:Hatoms; [eauto|]. cbn [bind].
  destruct (get_structure atoms') as [e|candidate] eqn:Hcand; [eauto|]. cbn [bind].
  rewrite check_distances_single_atom; [eauto|].
  rewrite (Hget _ _ Hcand), (Hset _ _ _ Hatoms). exact Hone.
Qed.

(** [random_vary_angle] never returns for a structure of a single atom
    when at least one structure is asked for: an attempt that gets as far
    as [check_distances] ends in the [ValueError] of [get_distances] for an
    empty list of neighbours.  The backend is taken to keep the number of
    atoms when it sets a cell or converts. *)
Theorem random_vary_angle_single_atom_raises (structure : Structure)
    (min_distance angle_percentage_scale : Q) (w_angle : option (list nat))
    (n_structures angle_max_attempts : Z) (g : rng) :
  (∀ a c a', set_cellpar a c = inr a' → num_atoms a' = num_atoms a) →
  (∀ a s, get_structure a = inr s → num_atoms (get_atoms s) = num_atoms a) →
  num_atoms (get_atoms structure) = 1%nat →
  (0 < n_structures)%Z →
  ∃ e, random_vary_angle np_arange cbrt randint structure min_distance
         angle_percentage_scale w_angle n_structures angle_max_attempts g = inl e.
Proof.
  intros Hset Hget Hone Hn. unfold random_vary_angle.
  destruct (Z.to_nat n_structures) as [|n] eqn:En; [lia|]. cbn [generate].
  destruct (get_structure _) as [e|unstretched]; [eauto|]. cbn [bind].
  destruct (scale_cell _ _ _ _ _ _) as [e|cells]; [eauto|]. cbn [bind].
  destruct (index cells 0) as [e|stretched]; [eauto|]. cbn [bind].
  destruct (index _ 3) as [e|alpha]; [eauto|]. cbn [bind].
  destruct (index _ 4) as [e|beta]; [eauto|]. cbn [bind].
  destruct (index _ 5) as [e|gamma]; [eauto|]. cbn [bind].
  destruct (attempt_loop_single_atom min_distance
              (match w_angle with None => [0; 1; 2]%nat | Some w => w end)
              alpha beta gamma (1 - angle_percentage_scale / 100)
              (1 + angle_percentage_scale / 100) (get_atoms structure)
              (cellpar (get_cell (get_atoms stretched))) g
              (Z.to_nat angle_max_attempts) Hset Hget Hone) as [e He].
  rewrite He. eauto.
Qed.

End Backend.

End GeometryMore.

Lemma scale_cell_scales_lattice_witness :
  ¬ (Geometry.det (Geometry.lattice GeometryExamples.si_cubic) == 0)%Q
  ∧ ∃ out,
      Geometry.scale_cell (B := Geometry.QBackend) GeometryExamples.arange_not_called
        GeometryExamples.cbrt_at_one GeometryExamples.si_cubic None 10 (Some [1%Q])
      = inr out
      ∧ length out = 1%nat.
Proof.
  split; [vm_compute; discriminate|].
  destruct (scale_cell_scales_lattice GeometryExamples.arange_not_called
              GeometryExamples.cbrt_at_one
              GeometryExamples.si_cubic None 10 (Some [1%Q]) [1%Q] eq_refl)
    as (out & Hout & Hall).
  - vm_compute. discriminate.
  - constructor; [vm_compute; discriminate|constructor].
  - exists out. split; [exact Hout|].
    apply Forall2_length in Hall. symmetry. exact Hall.
Defined.

(** The bounds 0.9 and 1.1 with three structures: numpy's grid has four
    values, 1 among them, and is taken as it is. *)
Lemma scale_factors_defined_range_witness :
  ∃ factors,
    Geometry.scale_factors_defined GeometryExamples.arange_09_11
      (Some GeometryExamples.range_09_11) 3 None = inr factors
    ∧ Geometry.Qmem 1 factors = true
    ∧ length factors = 4%nat.
Proof.
  eexists. split; [vm_compute; reflexivity|].
  destruct (scale_factors_defined_range GeometryExamples.arange_09_11
              GeometryExamples.range_09_11 3 None
              [8106479329266893 # 9007199254740992; 1;
               2476979795053773 # 2251799813685248;
               5404319552844595 # 4503599627370496]%Q eq_refl)
    as (lo & hi & grid & _ & _ & Hgrid & Hmem & _ & _ & Hlen).
  injection Hgrid as <-. split; [exact Hmem|exact Hlen].
Defined.

Lemma random_vary_angle_distance_invariant_witness :
  ∃ out g',
    Geometry.random_vary_angle (A := GeometryExamples.RowAngles)
      GeometryExamples.arange_not_called GeometryExamples.cbrt_of_103
      GeometryExamples.randint_lowest GeometryExamples.cubic_pair (3 # 2) 10 None 2 1000 []
    = inr (out, g')
    ∧ length out = Z.to_nat 2
    ∧ Forall
        (fun s =>
           Geometry.check_distances (A := GeometryExamples.RowAngles) s (3 # 2) = inr true
           ∧ ∀ i : nat, (i < GeometryExamples.sites s)%nat →
               Forall (fun distance => (3 # 2 <= distance)%Q)
                 (map (GeometryExamples.row_distance s i)
                    (filter (fun j : nat => j ≠ i) (seq 0 (GeometryExamples.sites s)))))
        out.
Proof.
  eexists _, _. split; [vm_compute; reflexivity|].
  eapply (random_vary_angle_distance_invariant (A := GeometryExamples.RowAngles)
           GeometryExamples.arange_not_called GeometryExamples.cbrt_of_103
           GeometryExamples.randint_lowest
           GeometryExamples.cubic_pair (3 # 2) 10 None 2 1000 []).
  vm_compute. reflexivity.
Defined.

Lemma random_vary_angle_single_atom_raises_witness :
  ∃ e,
    Geometry.random_vary_angle (A := GeometryExamples.RowAngles)
      GeometryExamples.arange_not_called GeometryExamples.cbrt_of_103
      GeometryExamples.randint_lowest GeometryExamples.cubic_single (3 # 2) 10 None 2 1000 []
    = inl e.
Proof.
  apply (random_vary_angle_single_atom_raises (A := GeometryExamples.RowAngles)
           GeometryExamples.arange_not_called GeometryExamples.cbrt_of_103
           GeometryExamples.randint_lowest GeometryExamples.cubic_single (3 # 2) 10 None 2
           1000 []).
  - intros a c a' [= <-]. reflexivity.
  - intros a s [= <-]. reflexivity.
  - reflexivity.
  - reflexivity.
Defined.

(** ** Further properties: rattling, file names, error metrics, species *)

Section RattleFacts.

Import Geometry Rattle.

Context {B : CellBackend} (rattle : Atoms → Q → Z → Atoms).

Lemma rattle_loop_later (atoms : Atoms) (rattle_std : Q) (n : nat) :
  ∀ (k : nat) (rattle_seed : Z) (acc out : list Structure),
    rattle_loop rattle atoms rattle_std (seq (S k) n) rattle_seed acc = inr out →
    ∃ new, out = acc ++ new ∧ length new = n
           ∧ ∀ j : nat, (j < n)%nat →
               ∃ s, new !! j = Some s
                    ∧ get_structure (rattle atoms rattle_std (rattle_seed + 1 + Z.of_nat j))
                      = inr s.
Proof.
  induction n as [|n IH]; intros k seed acc out H; cbn [seq rattle_loop] in H.
  - injection H as <-. exists []. rewrite app_nil_r.
    split; [reflexivity|]. split; [reflexivity|]. intros j Hj. clear -Hj. lia.
  - unfold rattle_pass in H. cbn [Nat.eqb Nat.ltb Nat.leb bind ret] in H.
    destruct (get_structure (rattle atoms rattle_std (seed + 1))) as [e|s] eqn:Hs;
      [discriminate|].
    cbn [bind ret] in H. apply IH in H as (new & -> & Hlen & Hall).
    exists (s :: new). rewrite <- app_assoc. split; [reflexivity|].
    split; [cbn; congruence|].
    intros [|j] Hj.
    + exists s. rewrite Z.add_0_r. auto.
    + destruct (Hall j) as (s' & Hs' & Hget); [clear -Hj; lia|].
      exists s'. split; [exact Hs'|].
      replace (seed + 1 + Z.of_nat (S j))%Z with (seed + 1 + 1 + Z.of_nat j)%Z by lia.
      exact Hget.
Qed.

(** A call of [std_rattle] that returns hands back [n_structures]
    structures, the [j]-th (from 0) rattled from the input with the seed
    [rattle_seed + j]. *)
Theorem std_rattle_seeds (structure : Structure) (n_structures : Z) (rattle_std : Q)
    (rattle_seed : Z) (out : list Structure) :
  std_rattle rattle structure n_structures rattle_std rattle_seed = inr out →
  length out = Z.to_nat n_structures
  ∧ ∀ j : nat, (j < Z.to_nat n_structures)%nat →
      ∃ s, out !! j = Some s
           ∧ get_structure
               (rattle (get_atoms structure) rattle_std (rattle_seed + Z.of_nat j))
             = inr s.
Proof.
  unfold std_rattle. destruct (Z.to_nat n_structures) as [|n]; cbn [seq rattle_loop].
  - intros [= <-]. split; [reflexivity|]. intros j Hj. clear -Hj. lia.
  - unfold rattle_pass. cbn [Nat.eqb Nat.ltb Nat.leb bind ret].
    destruct (get_structure (rattle (get_atoms structure) rattle_std rattle_seed))
      as [e|s] eqn:Hs; [discriminate|].
    cbn [bind ret app]. intros H.
    apply rattle_loop_later in H as (new & -> & Hlen & Hall).
    split; [cbn; congruence|].
    intros [|j] Hj.
    + exists s. rewrite Z.add_0_r. auto.
    + destruct (Hall j) as (s' & Hs' & Hget); [clear -Hj; lia|].
      exists s'. split; [exact Hs'|].
      replace (rattle_seed + Z.of_nat (S j))%Z with (rattle_seed + 1 + Z.of_nat j)%Z by lia.
      exact Hget.
Qed.

End RattleFacts.

Section CommonFacts.

Import Common.

Lemma string_append_assoc (a b c : string) :
  String.append (String.append a b) c = String.append a (String.append b c).
Proof.
  induction a as [|x a IH]; [reflexivity|].
  change (String x (String.append (String.append a b) c)
          = String x (String.append a (String.append b c))).
  f_equal. exact IH.
Qed.

Lemma before_first_spec (sep : ascii) (s : string) :
  ∃ rest,
    s = String.append (before_first sep s) rest
    ∧ ¬ In sep (String.list_ascii_of_string (before_first sep s))
    ∧ (rest = EmptyString ∨ ∃ rest', rest = String sep rest').
Proof.
  induction s as [|c s (rest & Hs & Hnot & Hrest)]; cbn [before_first].
  - exists EmptyString. repeat split; [intros []|left; reflexivity].
  - destruct (Ascii.eqb_spec c sep) as [->|Hne].
    + exists (String sep s). repeat split; [intros []|right; eauto].
    + exists rest. split; [|split].
      * change (String c s = String c (String.append (before_first sep s) rest)).
        f_equal. exact Hs.
      * cbn. intros [E|Hin]; [exact (Hne E)|exact (Hnot Hin)].
      * exact Hrest.
Qed.

Lemma before_first_chars (sep : ascii) (s : string) (c : ascii) :
  In c (String.list_ascii_of_string (before_first sep s)) → In c (String.list_ascii_of_string s).
Proof.
  induction s as [|x s IH]; cbn [before_first]; [intros []|].
  destruct (Ascii.eqb x sep); [intros []|].
  cbn. intros [E|Hin]; [left; exact E|right; exact (IH Hin)].
Qed.

(** For a file that is not an output file, the base name is the longest
    beginning of the file name that holds neither a dot nor an
    underscore. *)
Theorem extract_base_name_longest_prefix (filename : string) :
  ∃ rest,
    filename = String.append (extract_base_name filename false) rest
    ∧ (∀ c, In c (String.list_ascii_of_string (extract_base_name filename false)) →
            c ≠ "."%char ∧ c ≠ "_"%char)
    ∧ (rest = EmptyString
       ∨ ∃ c rest', rest = String c rest' ∧ (c = "."%char ∨ c = "_"%char)).
Proof.
  unfold extract_base_name.
  destruct (before_first_spec "." filename) as (rest1 & H1 & Hdot & Hrest1).
  destruct (before_first_spec "_" (before_first "." filename))
    as (rest2 & H2 & Hunder & Hrest2).
  exists (String.append rest2 rest1). repeat split.
  - rewrite <- string_append_assoc, <- H2. exact H1.
  - intros ->. apply Hdot. apply before_first_chars in H. exact H.
  - intros ->. exact (Hunder H).
  - destruct Hrest2 as [->|(rest' & ->)].
    + change (String.append EmptyString rest1) with rest1.
      destruct Hrest1 as [->|(rest' & ->)]; [left; reflexivity|right; eauto].
    + right. change (String.append (String "_" rest') rest1)
        with (String "_" (String.append rest' rest1)). eauto.
Qed.

Open Scope Q_scope.

Lemma Qsum_zero (xs : list Q) : Forall (fun x => x == 0) xs → Selection.Qsum xs == 0.
Proof.
  induction 1 as [|x xs Hx _ IH]; [reflexivity|].
  unfold Selection.Qsum in *. cbn [foldr]. rewrite Hx, IH. reflexivity.
Qed.

Lemma average_zero (xs : list Q) :
  xs ≠ [] → Forall (fun x => x == 0) xs → ∃ m, average xs = Some m ∧ m == 0.
Proof.
  intros Hne Hall. destruct xs as [|x xs]; [contradiction|].
  eexists. split; [reflexivity|].
  rewrite (Qsum_zero _ Hall). unfold Qdiv. apply Qmult_0_l.
Qed.

(** Compared with itself, a non-empty array has the root of 0 as error and
    as deviation: both are 0 for a square root with [sqrt 0 = 0]. *)
Theorem rms_dict_identical (np_sqrt : Q → Q) (x : list Q) :
  Proper (Qeq ==> Qeq) np_sqrt →
  np_sqrt 0 == 0 →
  x ≠ [] →
  ∃ r s, rms_dict np_sqrt x x = inr (MkRms (Some r) (Some s)) ∧ r == 0 ∧ s == 0.
Proof.
  intros Hproper Hzero Hne. unfold rms_dict. rewrite Nat.eqb_refl. cbn [negb].
  set (error_2 := map (fun '(r, p) => (r - p) * (r - p)) (zip x x)).
  assert (Hall : Forall (fun e => e == 0) error_2).
  { unfold error_2. clear. induction x as [|a x IH]; cbn; constructor; [ring|exact IH]. }
  assert (Hne2 : error_2 ≠ []).
  { unfold error_2. destruct x; [contradiction|discriminate]. }
  destruct (average_zero error_2 Hne2 Hall) as (m & Hm & Hm0).
  destruct (average_zero (map (fun e => (e - m) * (e - m)) error_2)) as (v & Hv & Hv0).
  { destruct error_2; [contradiction|discriminate]. }
  { clear -Hall Hm0. induction Hall as [|e es He _ IH]; cbn; constructor; [|exact IH].
    rewrite He, Hm0. ring. }
  unfold variance. rewrite Hm. cbn [fmap option_fmap option_map]. rewrite Hv.
  eexists _, _. split; [reflexivity|].
  split; [rewrite Hm0|rewrite Hv0]; exact Hzero.
Qed.

End CommonFacts.

Lemma std_rattle_seeds_witness :
  ∃ out,
    Rattle.std_rattle (B := Geometry.QBackend) FurtherExamples.shift_rattle
      GeometryExamples.si_cubic 3 (1 # 100) 42 = inr out
    ∧ length out = Z.to_nat 3.
Proof.
  eexists. split; [vm_compute; reflexivity|].
  apply (std_rattle_seeds (B := Geometry.QBackend) FurtherExamples.shift_rattle
           GeometryExamples.si_cubic 3 (1 # 100) 42).
  vm_compute. reflexivity.
Defined.

Lemma rms_dict_identical_witness :
  ∃ r s,
    Common.rms_dict FurtherExamples.sqrt_at_zero [1; 2; 3]%Q [1; 2; 3]%Q
    = inr (Common.MkRms (Some r) (Some s)) ∧ (r == 0)%Q ∧ (s == 0)%Q.
Proof.
  apply (rms_dict_identical FurtherExamples.sqrt_at_zero [1; 2; 3]%Q).
  - intros x y H. exact H.
  - reflexivity.
  - discriminate.
Defined.

(** ** Further properties: species and flattening *)

Section SpeciesFacts.

Import Common.

Context (set_order : list string → list string).

Lemma add_new_spec (syms : list string) :
  ∀ species_list : list string,
    NoDup species_list →
    NoDup (add_new syms species_list)
    ∧ ∀ x, x ∈ add_new syms species_list ↔ x ∈ species_list ∨ x ∈ syms.
Proof.
  induction syms as [|sym rest IH]; intros acc Hnd; cbn [add_new].
  - split; [exact Hnd|]. intros x. split; [auto|]. intros [H|H]; [exact H|inversion H].
  - case_bool_decide as Hin.
    + destruct (IH acc Hnd) as [Hnd' Hmem]. split; [exact Hnd'|].
      intros x. rewrite Hmem, elem_of_cons. split; [tauto|].
      intros [H|[->|H]]; auto.
    + destruct (IH (acc ++ [sym])) as [Hnd' Hmem].
      { apply NoDup_app. split; [exact Hnd|]. split; [|apply NoDup_singleton].
        intros y Hy Hy'. apply list_elem_of_singleton in Hy'. subst y. exact (Hin Hy). }
      split; [exact Hnd'|].
      intros x. rewrite Hmem, elem_of_app, list_elem_of_singleton, elem_of_cons. tauto.
Qed.

Lemma get_species_from_spec (atoms : list (list string)) :
  lists_a_set set_order →
  ∀ species_list : list string,
    NoDup species_list →
    NoDup (get_species_from set_order atoms species_list)
    ∧ ∀ x, x ∈ get_species_from set_order atoms species_list
           ↔ x ∈ species_list ∨ ∃ sym_all, sym_all ∈ atoms ∧ x ∈ sym_all.
Proof.
  intros Hset. induction atoms as [|sym_all rest IH]; intros acc Hnd;
    cbn [get_species_from].
  - split; [exact Hnd|]. intros x. split; [auto|].
    intros [H|(s & Hs & _)]; [exact H|inversion Hs].
  - destruct (add_new_spec (set_order sym_all) acc Hnd) as [Hnd1 Hmem1].
    destruct (IH _ Hnd1) as [Hnd2 Hmem2]. split; [exact Hnd2|].
    intros x. rewrite Hmem2, Hmem1. destruct (Hset sym_all) as [_ Hsame].
    rewrite Hsame. split.
    + intros [[H|H]|(s & Hs & Hx)]; [left; exact H|right|right].
      * exists sym_all. split; [left|exact H].
      * exists s. split; [right; exact Hs|exact Hx].
    + intros [H|(s & Hs & Hx)]; [left; left; exact H|].
      apply elem_of_cons in Hs as [->|Hs]; [left; right; exact Hx|].
      right. exists s. auto.
Qed.

(** [get_species] lists every chemical symbol that occurs in some
    configuration, each exactly once. *)
Theorem get_species_spec (atoms : list (list string)) :
  lists_a_set set_order →
  NoDup (get_species set_order atoms)
  ∧ ∀ x, x ∈ get_species set_order atoms ↔ ∃ sym_all, sym_all ∈ atoms ∧ x ∈ sym_all.
Proof.
  intros Hset.
  destruct (get_species_from_spec atoms Hset [] (NoDup_nil_2)) as [Hnd Hmem].
  split; [exact Hnd|]. intros x. unfold get_species. rewrite Hmem. split.
  - intros [H|H]; [inversion H|exact H].
  - intros H. right. exact H.
Qed.

Lemma lookup_nth_string (l : list string) (i : nat) :
  (i < length l)%nat → l !! i = Some (nth i l EmptyString).
Proof.
  intros Hi. destruct (lookup_lt_is_Some_2 l i Hi) as [x Hx].
  rewrite Hx. f_equal. symmetry. apply nth_lookup_Some. exact Hx.
Qed.

Lemma pairs_count_from (l : list string) (k : nat) :
  (k ≤ length l)%nat →
  (2 * length
         (flat_map
            (fun i : nat =>
               map (fun j : nat => (nth i l EmptyString, nth j l EmptyString))
                   (seq i (length l - i)))
            (seq (length l - k) k))
   = k * (k + 1))%nat.
Proof.
  induction k as [|k IH]; intros Hk; [reflexivity|].
  cbn [seq flat_map]. rewrite length_app, length_map, length_seq.
  replace (S (length l - S k)) with (length l - k)%nat by lia.
  specialize (IH ltac:(lia)). lia.
Qed.

(** [find_element_pairs] lists the pairs [(species[i], species[j])] with
    [i <= j], and nothing else: n (n + 1) / 2 pairs for n species. *)
Theorem find_element_pairs_spec (atoms : list (list string))
    (symb_list : option (list string)) :
  let species_list :=
    match symb_list with
    | None => get_species set_order atoms
    | Some l => l
    end in
  (2 * length (find_element_pairs set_order atoms symb_list)
   = length species_list * (length species_list + 1))%nat
  ∧ ∀ a b, (a, b) ∈ find_element_pairs set_order atoms symb_list
           ↔ ∃ i j : nat, (i ≤ j)%nat ∧ species_list !! i = Some a
                          ∧ species_list !! j = Some b.
Proof.
  intros species_list. unfold find_element_pairs. fold species_list.
  generalize species_list as l. clear. intros l. unfold pairs_of. split.
  - pose proof (pairs_count_from l (length l) (le_n _)) as H.
    rewrite Nat.sub_diag in H. exact H.
  - intros a b. rewrite list_elem_of_In, in_flat_map. split.
    + intros (i & Hi & Hin). apply in_seq in Hi. apply in_map_iff in Hin as (j & E & Hj).
      apply in_seq in Hj. injection E as <- <-. exists i, j.
      split; [lia|]. split; apply lookup_nth_string; lia.
    + intros (i & j & Hij & Hi & Hj).
      pose proof (lookup_lt_Some _ _ _ Hi). pose proof (lookup_lt_Some _ _ _ Hj).
      exists i. split; [apply in_seq; lia|]. apply in_map_iff. exists j. split.
      * f_equal; apply nth_lookup_Some with (d := EmptyString); assumption.
      * apply in_seq. lia.
Qed.

End SpeciesFacts.

Section FlattenFacts.

Import Selection.

Lemma item_nested_ind (P : item → Prop) :
  (∀ a, P (Config a)) → (∀ l, Forall P l → P (Sub l)) → ∀ x, P x.
Proof.
  intros HC HS. fix IH 1. intros [a|l]; [apply HC|].
  apply HS. induction l as [|y l IHl]; constructor; [apply IH|exact IHl].
Qed.

Lemma flatten_cons (x : item) (l : list item) :
  flatten (x :: l) = flatten_item x ++ flatten l.
Proof. reflexivity. Qed.

Lemma flatten_item_configs (x : item) : ∃ ats, flatten_item x = map Config ats.
Proof.
  induction x as [a|l IH] using item_nested_ind.
  - exists [a]. reflexivity.
  - change (flatten_item (Sub l)) with (flatten l).
    induction IH as [|y l (ats1 & H1) _ (ats2 & H2)].
    + exists []. reflexivity.
    + exists (ats1 ++ ats2). rewrite flatten_cons, H1, H2, map_app. reflexivity.
Qed.

Lemma flatten_flat (ats : list Atoms) : flatten (map Config ats) = map Config ats.
Proof.
  induction ats as [|a ats IH]; [reflexivity|].
  cbn [map]. rewrite flatten_cons, IH. reflexivity.
Qed.

(** [flatten(..., recursive=True)] leaves no nested list behind, does
    nothing to a list that is already flat, and so does nothing when
    applied twice. *)
Theorem flatten_spec :
  (∀ ats, flatten (map Config ats) = map Config ats)
  ∧ ∀ l, (∃ ats, flatten l = map Config ats) ∧ flatten (flatten l) = flatten l.
Proof.
  split; [exact flatten_flat|]. intros l.
  destruct (flatten_item_configs (Sub l)) as [ats Hats].
  change (flatten_item (Sub l)) with (flatten l) in Hats.
  split; [eauto|]. rewrite Hats. apply flatten_flat.
Qed.

End FlattenFacts.

Lemma first_occurrences_lists_a_set : Common.lists_a_set FurtherExamples.first_occurrences.
Proof.
  intros l. split; [apply NoDup_remove_dups|]. intros x. apply elem_of_remove_dups.
Qed.

Lemma get_species_spec_witness :
  NoDup (Common.get_species FurtherExamples.first_occurrences [["Si"]; ["Si"; "O"]])
  ∧ length (Common.get_species FurtherExamples.first_occurrences [["Si"]; ["Si"; "O"]])
    = 2%nat.
Proof.
  split; [|vm_compute; reflexivity].
  apply (get_species_spec FurtherExamples.first_occurrences [["Si"]; ["Si"; "O"]]
           first_occurrences_lists_a_set).
Defined.

(** ** Further properties: CUR selection and the samplers *)

Section SelectionMore.

Import Selection.

Open Scope Z_scope.

Context (GPa : Q) (np_exp : Q → Q).
Context {rng : Type} (uniform : rng → Q * rng).
Context (choice : rng → nat → Z → list Q → res (list nat * rng)).
Context (leverage_scores : option string → Q → Z → list Atoms → res (list Q)).
Context (hull_distances :
  string → string → gmap Z Q → option (list string) → list item → res (list Q)).

Lemma traverse_as_atoms_configs (ats : list Atoms) :
  traverse as_atoms (map Config ats) = inr ats.
Proof.
  induction ats as [|b l IH]; [reflexivity|].
  cbn [map traverse as_atoms ret bind]. rewrite IH. reflexivity.
Qed.

(** What a returning call of [cur_select] on a non-empty flat list of
    configurations has done. *)
Lemma cur_select_returns (a : Atoms) (ats : list Atoms) (descriptor : option string)
    (kernel_exp : Q) (select_nums : Z) (stochastic : bool) (g g' : rng)
    (out : option (list item)) :
  cur_select choice leverage_scores (map Config (a :: ats)) descriptor kernel_exp
    select_nums stochastic g = inr (out, g') →
  ∃ c_scores indices picked,
    leverage_scores descriptor kernel_exp select_nums (a :: ats) = inr c_scores
    ∧ out = Some (map Config picked)
    ∧ Forall2 (fun i x => (a :: ats) !! i = Some x) indices picked
    ∧ (if stochastic
       then ∃ drawn, choice g (length (a :: ats)) select_nums c_scores = inr (drawn, g')
                     ∧ indices = merge_sort le drawn
       else indices = merge_sort le (slice_last select_nums (argsort c_scores)) ∧ g' = g).
Proof.
  intros Hrun. unfold cur_select in Hrun.
  change (index (map Config (a :: ats)) 0) with (@ret item (Config a)) in Hrun.
  cbn [bind ret is_list] in Hrun.
  rewrite traverse_as_atoms_configs in Hrun. cbn [bind length Nat.eqb negb] in Hrun.
  destruct (leverage_scores _ _ _ _) as [e|c_scores]; [discriminate|].
  cbn [bind] in Hrun. exists c_scores.
  destruct stochastic.
  - destruct (choice _ _ _ _) as [e|[drawn g1]] eqn:Hdrawn; [discriminate|].
    cbn [bind ret] in Hrun.
    destruct (traverse (index (a :: ats)) (merge_sort le drawn)) as [e|picked] eqn:Hpicked;
      [discriminate|].
    cbn [bind ret] in Hrun. injection Hrun as <- <-.
    apply traverse_index in Hpicked.
    exists (merge_sort le drawn), picked. eauto 10.
  - cbn [bind ret] in Hrun.
    destruct (traverse (index (a :: ats)) _) as [e|picked] eqn:Hpicked; [discriminate|].
    cbn [bind ret] in Hrun. injection Hrun as <- <-.
    apply traverse_index in Hpicked.
    eexists _, picked. eauto 10.
Qed.

Lemma Sorted_le_seq (n : nat) : ∀ k : nat, Sorted le (seq k n).
Proof.
  induction n as [|n IH]; intros k; cbn [seq]; constructor; [apply IH|].
  destruct n; constructor. lia.
Qed.

Lemma traverse_index_seq {A : Type} (l : list A) :
  ∀ pre : list A,
    traverse (index (pre ++ l)) (seq (length pre) (length l)) = inr l.
Proof.
  induction l as [|x l IH]; intros pre; [reflexivity|].
  cbn [length seq traverse]. unfold index at 1.
  rewrite lookup_app_r by lia. rewrite Nat.sub_diag. cbn [lookup list_lookup bind ret].
  specialize (IH (pre ++ [x])). rewrite <- app_assoc in IH. cbn [app] in IH.
  rewrite length_app in IH. cbn [length] in IH. rewrite Nat.add_1_r in IH.
  rewrite IH. reflexivity.
Qed.

Lemma slice_last_all (k : Z) (l : list nat) :
  k = 0 ∨ Z.of_nat (length l) ≤ k → slice_last k l = l.
Proof.
  intros Hk. unfold slice_last.
  destruct (Z.ltb_spec (- k) 0).
  - replace (Z.to_nat (Z.max (Z.of_nat (length l) - k) 0)) with 0%nat by lia. reflexivity.
  - replace (Z.to_nat (Z.min (- k) (Z.of_nat (length l)))) with 0%nat by lia. reflexivity.
Qed.

(** The deterministic selection asked for no configuration, or for at
    least as many as the pool holds, returns the whole pool: with
    [select_nums = 0] the slice [[-0:]] is the full list of indices. *)
Theorem cur_select_deterministic_whole_pool (a : Atoms) (ats : list Atoms)
    (descriptor : option string) (kernel_exp : Q) (select_nums : Z) (g : rng)
    (c_scores : list Q) :
  leverage_scores descriptor kernel_exp select_nums (a :: ats) = inr c_scores →
  length c_scores = length (a :: ats) →
  select_nums = 0 ∨ Z.of_nat (length (a :: ats)) ≤ select_nums →
  cur_select choice leverage_scores (map Config (a :: ats)) descriptor kernel_exp
    select_nums false g
  = inr (Some (map Config (a :: ats)), g).
Proof.
  intros Hscores Hlen Hk. unfold cur_select.
  change (index (map Config (a :: ats)) 0) with (@ret item (Config a)).
  cbn [bind ret is_list].
  rewrite traverse_as_atoms_configs. cbn [bind length Nat.eqb negb].
  rewrite Hscores. cbn [bind ret].
  assert (Hperm : argsort c_scores ≡ₚ seq 0 (length (a :: ats))).
  { unfold argsort. rewrite merge_sort_Permutation, Hlen. reflexivity. }
  rewrite slice_last_all
    by (rewrite (Permutation_length Hperm), length_seq; exact Hk).
  assert (Hsorted : merge_sort le (argsort c_scores) = seq 0 (length (a :: ats))).
  { apply (Sorted_unique le).
    - apply Sorted_merge_sort. apply _.
    - apply Sorted_le_seq.
    - rewrite merge_sort_Permutation. exact Hperm. }
  rewrite Hsorted.
  pose proof (traverse_index_seq (a :: ats) []) as Ht.
  change ([] ++ a :: ats) with (a :: ats) in Ht.
  change (length (@nil Atoms)) with 0%nat in Ht.
  rewrite Ht. reflexivity.
Qed.

Lemma sorted_distinct_increasing (l : list nat) :
  Sorted le l → NoDup l → StronglySorted lt l.
Proof.
  intros Hs Hnd. apply Sorted_StronglySorted in Hs; [|apply _].
  induction Hs as [|x l Hs IH Hall]; [constructor|].
  apply NoDup_cons in Hnd as [Hx Hnd]. constructor; [auto|].
  apply Forall_forall. intros y Hy.
  pose proof (proj1 (Forall_forall _ _) Hall y Hy) as Hle.
  destruct (decide (x = y)) as [->|Hne]; [contradiction|]. lia.
Qed.

Lemma increasing_lookups_sublist {A : Type} (l : list A) (is_ : list nat) :
  ∀ (xs : list A) (k : nat),
    Forall2 (fun i x => l !! i = Some x) is_ xs →
    StronglySorted lt is_ →
    Forall (le k) is_ →
    sublist xs (drop k l).
Proof.
  induction is_ as [|i is_ IH]; intros xs k Hall Hs Hk.
  - inversion Hall; subst. apply sublist_nil_l.
  - inversion Hall as [|? x ? xs' Hi Hall']; subst.
    apply StronglySorted_inv in Hs as [Hs Hlt].
    apply Forall_cons in Hk as [Hki _].
    assert (Hrest : sublist xs' (drop (S i) l)).
    { apply IH; [exact Hall'|exact Hs|].
      eapply Forall_impl; [exact Hlt|]. intros j Hj. cbn in Hj. lia. }
    assert (Hmid : drop k l !! (i - k)%nat = Some x).
    { rewrite lookup_drop. replace (k + (i - k))%nat with i by lia. exact Hi. }
    pose proof (take_drop_middle (drop k l) (i - k) x Hmid) as E.
    rewrite drop_drop in E. replace (k + S (i - k))%nat with (S i) in E by lia.
    rewrite <- E. apply sublist_inserts_l. apply sublist_skip. exact Hrest.
Qed.

(** A stochastic [cur_select] on a flat list of configurations returns
    [select_nums] of its entries in the order in which they stand in the
    list, none of them twice. *)
Theorem cur_select_stochastic_sublist (ats : list Atoms) (descriptor : option string)
    (kernel_exp : Q) (select_nums : Z) (g g' : rng) (out : list item) :
  choice_without_replacement choice →
  cur_select choice leverage_scores (map Config ats) descriptor kernel_exp select_nums
    true g = inr (Some out, g') →
  sublist out (map Config ats) ∧ length out = Z.to_nat select_nums.
Proof.
  intros Hchoice Hrun. destruct ats as [|a ats]; [discriminate Hrun|].
  apply cur_select_returns in Hrun
    as (c_scores & indices & picked & _ & [= ->] & Hpicked & drawn & Hdrawn & ->).
  apply Hchoice in Hdrawn as [Hnd Hlen]. split.
  - apply (fmap_sublist Config picked (a :: ats)).
    change (a :: ats) with (drop 0 (a :: ats)).
    eapply increasing_lookups_sublist; [exact Hpicked| |].
    + apply sorted_distinct_increasing.
      * apply Sorted_merge_sort. apply _.
      * rewrite merge_sort_Permutation. exact Hnd.
    + apply Forall_forall. intros; lia.
  - rewrite length_map, <- (Forall2_length _ _ _ Hpicked), merge_sort_Permutation.
    exact Hlen.
Qed.

(** What a returning call of [boltzhist_CUR] has gone through. *)
Lemma boltzhist_CUR_returns
    (first : item) (rest : list item) (isol_es : option (gmap Z Q))
    (bolt_frac : Q) (bolt_max_num cur_num : Z) (kernel_exp kT : Q)
    (energy_label : string) (P : option (list Q)) (descriptor : option string)
    (g g' : rng) (out : option (list item)) :
  snd (boltzhist_CUR GPa np_exp uniform choice leverage_scores (first :: rest) isol_es
         bolt_frac bolt_max_num cur_num kernel_exp kT energy_label P descriptor g)
  = inr (out, g') →
  ∃ ats selected remaining g1,
    working_pool (first :: rest) first = map Config ats
    ∧ map Config ats ≡ₚ map Config selected ++ remaining
    ∧ length selected
      = Z.to_nat (select_num_of bolt_frac bolt_max_num (working_pool (first :: rest) first))
    ∧ cur_stage choice leverage_scores (map Config selected) descriptor kernel_exp cur_num
        (select_num_of bolt_frac bolt_max_num (working_pool (first :: rest) first)) g1
      = inr (out, g').
Proof.
  unfold boltzhist_CUR. intros Hrun.
  set (fatoms := working_pool (first :: rest) first) in *.
  destruct (enthalpies_of GPa isol_es P fatoms) as [e|enthalpies] eqn:Henth;
    [discriminate|].
  cbn [bind] in Hrun.
  destruct (config_weights np_exp kT enthalpies) as [e|config_prob]; [discriminate|].
  cbn [bind ret] in Hrun.
  destruct (draw_loop _ _ _ _ _ _ _) as [remaining drawn] eqn:Hloop.
  cbn [snd] in Hrun.
  destruct drawn as [e|[selected g1]]; [discriminate|]. cbn [bind] in Hrun.
  apply draw_loop_returns in Hloop as (drawn & Hsel & Hlen & Hperm & _).
  cbn [app] in Hsel. subst drawn.
  destruct (enthalpies_of_configs _ _ _ _ _ Henth) as [ats Hats].
  destruct (all_configs selected) as [picked_from ->].
  { intros x Hx. assert (Hin : x ∈ fatoms).
    { rewrite Hperm. apply elem_of_app. left. exact Hx. }
    rewrite Hats in Hin. apply list_elem_of_fmap in Hin as (b & -> & _). eauto. }
  exists ats, picked_from, remaining, g1.
  rewrite length_map in Hlen. rewrite <- Hats. auto.
Qed.

(** [boltzhist_CUR] only selects: every configuration it returns is an
    entry of the (flattened) pool it was given. *)
Theorem boltzhist_CUR_returns_pool_entries
    (first : item) (rest : list item) (isol_es : option (gmap Z Q))
    (bolt_frac : Q) (bolt_max_num cur_num : Z) (kernel_exp kT : Q)
    (energy_label : string) (P : option (list Q)) (descriptor : option string)
    (g g' : rng) (out : list item) :
  snd (boltzhist_CUR GPa np_exp uniform choice leverage_scores (first :: rest) isol_es
         bolt_frac bolt_max_num cur_num kernel_exp kT energy_label P descriptor g)
  = inr (Some out, g') →
  out ⊆ working_pool (first :: rest) first.
Proof.
  intros Hrun.
  apply boltzhist_CUR_returns in Hrun as (ats & selected & remaining & g1 & -> & Hperm & _ & Hcur).
  assert (Hsel : map Config selected ⊆ map Config ats).
  { intros x Hx. rewrite Hperm. apply elem_of_app. left. exact Hx. }
  unfold cur_stage in Hcur. destruct (cur_num <? _).
  - destruct selected as [|a selected]; [discriminate Hcur|].
    apply cur_select_returns in Hcur
      as (c_scores & indices & picked & _ & [= ->] & Hpicked & _).
    intros x Hx. apply Hsel.
    apply list_elem_of_fmap in Hx as (b & -> & Hb).
    apply list_elem_of_fmap. exists b. split; [reflexivity|].
    eapply lookups_subseteq; eauto.
  - injection Hcur as <- <-. exact Hsel.
Qed.

Lemma cur_select_stochastic_count (selected : list Atoms) (descriptor : option string)
    (kernel_exp : Q) (select_nums : Z) (g g' : rng) (out : list item) :
  choice_without_replacement choice →
  cur_select choice leverage_scores (map Config selected) descriptor kernel_exp
    select_nums true g = inr (Some out, g') →
  length out = Z.to_nat select_nums.
Proof.
  intros Hchoice Hrun. destruct selected as [|a selected]; [discriminate Hrun|].
  apply cur_select_returns in Hrun
    as (c_scores & indices & picked & _ & [= ->] & Hpicked & drawn & Hdrawn & ->).
  apply Hchoice in Hdrawn as [_ Hlen].
  rewrite length_map, <- (Forall2_length _ _ _ Hpicked), merge_sort_Permutation.
  exact Hlen.
Qed.

(** For sensible counts, a returning call hands back exactly
    [min(cur_num, select_num)] configurations, [select_num] being
    [min(round(bolt_frac * len(pool)), bolt_max_num)]. *)
Theorem boltzhist_CUR_count
    (first : item) (rest : list item) (isol_es : option (gmap Z Q))
    (bolt_frac : Q) (bolt_max_num cur_num : Z) (kernel_exp kT : Q)
    (energy_label : string) (P : option (list Q)) (descriptor : option string)
    (g g' : rng) (out : list item) :
  choice_without_replacement choice →
  (0 <= bolt_frac)%Q → 0 ≤ bolt_max_num → 0 ≤ cur_num →
  snd (boltzhist_CUR GPa np_exp uniform choice leverage_scores (first :: rest) isol_es
         bolt_frac bolt_max_num cur_num kernel_exp kT energy_label P descriptor g)
  = inr (Some out, g') →
  Z.of_nat (length out)
  = Z.min cur_num
      (Z.min (py_round (bolt_frac
                        * inject_Z (Z.of_nat (length (working_pool (first :: rest) first)))))
             bolt_max_num).
Proof.
  intros Hchoice Hfrac Hmax Hcur_num Hrun.
  rewrite <- select_num_of_min.
  pose proof (select_num_of_nonneg bolt_frac bolt_max_num
                (working_pool (first :: rest) first) Hfrac Hmax) as Hnonneg.
  apply boltzhist_CUR_returns in Hrun as (ats & selected & remaining & g1 & _ & _ & Hlen & Hcur).
  unfold cur_stage in Hcur.
  destruct (Z.ltb_spec cur_num
              (select_num_of bolt_frac bolt_max_num (working_pool (first :: rest) first))).
  - apply cur_select_stochastic_count in Hcur; [|exact Hchoice]. lia.
  - injection Hcur as <- <-. rewrite length_map. lia.
Qed.

Lemma draw_loop_raises (passes : nat) :
  ∀ (config_prob : list Q) (fatoms : list item) (values : list Q)
    (selected : list item) (g : rng) (remaining : list item) (e : exn),
    draw_loop uniform passes config_prob fatoms values selected g = (remaining, inl e) →
    e = IndexError.
Proof.
  induction passes as [|passes IH]; intros config_prob fatoms values selected g
    remaining e Hrun; cbn [draw_loop] in Hrun; [discriminate|].
  destruct (draw uniform config_prob g) as [[normalised config_i] g1].
  destruct (fatoms !! config_i) as [chosen|]; [|injection Hrun as _ <-; reflexivity].
  unfold np_delete in Hrun.
  destruct (decide (config_i < length normalised)%nat);
    [|injection Hrun as _ <-; reflexivity].
  destruct (decide (config_i < length values)%nat); [|injection Hrun as _ <-; reflexivity].
  eapply IH. exact Hrun.
Qed.

(** Asked for more configurations than the pool holds (possible with
    [bolt_frac > 1]), [boltzhist_CUR] does not return fewer: once the
    enthalpies and weights are computed, the call raises [IndexError]. *)
Theorem boltzhist_CUR_overdraw_raises
    (first : item) (rest : list item) (isol_es : option (gmap Z Q))
    (bolt_frac : Q) (bolt_max_num cur_num : Z) (kernel_exp kT : Q)
    (energy_label : string) (P : option (list Q)) (descriptor : option string)
    (g : rng) (enthalpies config_prob : list Q) :
  enthalpies_of GPa isol_es P (working_pool (first :: rest) first) = inr enthalpies →
  config_weights np_exp kT enthalpies = inr config_prob →
  Z.of_nat (length (working_pool (first :: rest) first))
  < select_num_of bolt_frac bolt_max_num (working_pool (first :: rest) first) →
  snd (boltzhist_CUR GPa np_exp uniform choice leverage_scores (first :: rest) isol_es
         bolt_frac bolt_max_num cur_num kernel_exp kT energy_label P descriptor g)
  = inl IndexError.
Proof.
  intros Henth Hprob Hover. unfold boltzhist_CUR.
  set (fatoms := working_pool (first :: rest) first) in *.
  rewrite Henth. cbn [bind]. rewrite Hprob. cbn [bind ret].
  destruct (draw_loop _ _ _ _ _ _ _) as [remaining drawn] eqn:Hloop. cbn [snd].
  destruct drawn as [e|[selected g1]].
  - apply draw_loop_raises in Hloop. subst e. reflexivity.
  - exfalso. apply draw_loop_returns in Hloop as (drawn & _ & Hlen & Hperm & _).
    apply Permutation_length in Hperm. rewrite length_app in Hperm. lia.
Qed.

End SelectionMore.

Lemma cur_select_deterministic_whole_pool_witness :
  Selection.cur_select SelectionExamples.choice SelectionExamples.leverage_scores
    (map Selection.Config [SelectionExamples.si2; SelectionExamples.si1]) None 4 0 false
    ([] : SelectionExamples.replay)
  = inr (Some (map Selection.Config [SelectionExamples.si2; SelectionExamples.si1]), []).
Proof.
  apply (cur_select_deterministic_whole_pool SelectionExamples.choice
           SelectionExamples.leverage_scores SelectionExamples.si2 [SelectionExamples.si1]
           None 4 0 [] [(1 / inject_Z 2)%Q; (1 / inject_Z 2)%Q]).
  - reflexivity.
  - reflexivity.
  - left. reflexivity.
Defined.

Lemma cur_select_stochastic_sublist_witness :
  ∃ out,
    Selection.cur_select SelectionExamples.choice SelectionExamples.leverage_scores
      (map Selection.Config [SelectionExamples.si2; SelectionExamples.si1]) None 4 1 true
      ([] : SelectionExamples.replay)
    = inr (Some out, [])
    ∧ sublist out (map Selection.Config [SelectionExamples.si2; SelectionExamples.si1])
    ∧ length out = Z.to_nat 1.
Proof.
  eexists. split; [vm_compute; reflexivity|].
  eapply (cur_select_stochastic_sublist SelectionExamples.choice
            SelectionExamples.leverage_scores
            [SelectionExamples.si2; SelectionExamples.si1] None 4 1 [] []).
  - exact example_choice_without_replacement.
  - vm_compute. reflexivity.
Defined.

Lemma boltzhist_CUR_returns_pool_entries_witness :
  snd (Selection.boltzhist_CUR SelectionExamples.GPa SelectionExamples.exp_not_called
           SelectionExamples.uniform SelectionExamples.choice
           SelectionExamples.leverage_scores
           [Selection.Config SelectionExamples.si2; Selection.Config SelectionExamples.si1]
           (Some SelectionExamples.isol_es) (1 # 2) 3000 100 4 0 "energy" None None
           [(1 # 4)%Q])
  = inr (Some [Selection.Config SelectionExamples.si2], [])
  ∧ [Selection.Config SelectionExamples.si2] ⊆ [Selection.Config SelectionExamples.si2; Selection.Config SelectionExamples.si1].
Proof.
  split; [vm_compute; reflexivity|].
  apply (boltzhist_CUR_returns_pool_entries SelectionExamples.GPa
           SelectionExamples.exp_not_called SelectionExamples.uniform
           SelectionExamples.choice SelectionExamples.leverage_scores
           (Selection.Config SelectionExamples.si2)
           [Selection.Config SelectionExamples.si1]
           (Some SelectionExamples.isol_es) (1 # 2) 3000 100 4 0 "energy" None None
           [(1 # 4)%Q] [] [Selection.Config SelectionExamples.si2]).
  vm_compute. reflexivity.
Defined.

Lemma boltzhist_CUR_count_witness :
  snd (Selection.boltzhist_CUR SelectionExamples.GPa SelectionExamples.exp_not_called
           SelectionExamples.uniform SelectionExamples.choice
           SelectionExamples.leverage_scores
           [Selection.Config SelectionExamples.si2; Selection.Config SelectionExamples.si1]
           (Some SelectionExamples.isol_es) (1 # 2) 3000 100 4 0 "energy" None None
           [(1 # 4)%Q])
  = inr (Some [Selection.Config SelectionExamples.si2], [])
  ∧ Z.of_nat (length [Selection.Config SelectionExamples.si2])
    = Z.min 100
        (Z.min (Selection.py_round
                  ((1 # 2) * inject_Z (Z.of_nat (length [Selection.Config SelectionExamples.si2; Selection.Config SelectionExamples.si1]))))
               3000).
Proof.
  split; [vm_compute; reflexivity|].
  apply (boltzhist_CUR_count SelectionExamples.GPa
           SelectionExamples.exp_not_called SelectionExamples.uniform
           SelectionExamples.choice SelectionExamples.leverage_scores
           (Selection.Config SelectionExamples.si2)
           [Selection.Config SelectionExamples.si1]
           (Some SelectionExamples.isol_es) (1 # 2) 3000 100 4 0 "energy" None None
           [(1 # 4)%Q] [] [Selection.Config SelectionExamples.si2] example_choice_without_replacement).
  - vm_compute. discriminate.
  - lia.
  - lia.
  - vm_compute. reflexivity.
Defined.

Lemma boltzhist_CUR_overdraw_raises_witness :
  snd (Selection.boltzhist_CUR SelectionExamples.GPa SelectionExamples.exp_not_called
           SelectionExamples.uniform SelectionExamples.choice
           SelectionExamples.leverage_scores
           [Selection.Config SelectionExamples.si2; Selection.Config SelectionExamples.si1]
           (Some SelectionExamples.isol_es) (2 # 1) 3000 100 4 0 "energy" None None
           [(1 # 4)%Q])
  = inl IndexError.
Proof.
  eapply (boltzhist_CUR_overdraw_raises SelectionExamples.GPa
            SelectionExamples.exp_not_called SelectionExamples.uniform
            SelectionExamples.choice SelectionExamples.leverage_scores
            (Selection.Config SelectionExamples.si2)
            [Selection.Config SelectionExamples.si1]).
  - vm_compute. reflexivity.
  - vm_compute. reflexivity.
  - vm_compute. reflexivity.
Defined.

(** ** Further properties: the sampling loop never runs out of range *)

Section DrawFacts.

Import Selection.

Open Scope Z_scope.

Context {rng : Type} (uniform : rng → Q * rng).

Lemma Qsum_nonneg (xs : list Q) : Forall (fun p => (0 < p)%Q) xs → (0 <= Qsum xs)%Q.
Proof.
  induction 1 as [|x xs Hx _ IH]; [discriminate|].
  unfold Qsum in *. cbn [foldr].
  change 0%Q with (0 + 0)%Q. apply Qplus_le_compat; [apply Qlt_le_weak; exact Hx|exact IH].
Qed.

Lemma Qsum_pos (xs : list Q) :
  xs ≠ [] → Forall (fun p => (0 < p)%Q) xs → (0 < Qsum xs)%Q.
Proof.
  intros Hne Hall. destruct Hall as [|x xs Hx Hall]; [contradiction|].
  pose proof (Qsum_nonneg xs Hall) as Hrest.
  unfold Qsum in *. cbn [foldr].
  change 0%Q with (0 + 0)%Q. apply Qplus_lt_le_compat; assumption.
Qed.

Lemma Qsum_scaled (total : Q) (xs : list Q) :
  (Qsum (map (fun p => p / total) xs) == Qsum xs / total)%Q.
Proof.
  induction xs as [|x xs IH]; unfold Qsum in *; cbn [map foldr].
  - unfold Qdiv. rewrite Qmult_0_l. reflexivity.
  - rewrite IH. unfold Qdiv. ring.
Qed.

Lemma length_cumsum_from (xs : list Q) : ∀ acc, length (cumsum_from acc xs) = length xs.
Proof. induction xs as [|x xs IH]; intros acc; cbn; [reflexivity|]. rewrite IH. reflexivity. Qed.

Lemma last_cumsum_from (xs : list Q) :
  ∀ acc, xs ≠ [] →
    ∃ c, last (cumsum_from acc xs) = Some c ∧ (c == acc + Qsum xs)%Q.
Proof.
  induction xs as [|x xs IH]; intros acc Hne; [contradiction|].
  destruct xs as [|y xs].
  - exists (acc + x)%Q. split; [reflexivity|]. unfold Qsum. cbn [foldr]. ring.
  - destruct (IH (acc + x)%Q) as (c & Hc & Hsum); [discriminate|].
    exists c. split.
    + cbn [cumsum_from] in *. rewrite last_cons, Hc. reflexivity.
    + rewrite Hsum. unfold Qsum. cbn [foldr]. ring.
Qed.

(** One draw against positive weights with a uniform variate below 1: the
    index lies inside the pool, and the normalised weights are positive
    again. *)
Lemma draw_in_range (config_prob : list Q) (g : rng) :
  config_prob ≠ [] →
  Forall (fun p => (0 < p)%Q) config_prob →
  (fst (uniform g) < 1)%Q →
  (snd (fst (draw uniform config_prob g)) < length config_prob)%nat
  ∧ length (fst (fst (draw uniform config_prob g))) = length config_prob
  ∧ Forall (fun p => (0 < p)%Q) (fst (fst (draw uniform config_prob g))).
Proof.
  intros Hne Hpos Hrv. unfold draw.
  pose proof (Qsum_pos _ Hne Hpos) as Htotal.
  set (total := Qsum config_prob) in *.
  set (normalised := map (fun p => (p / total)%Q) config_prob).
  destruct (uniform g) as [rv g1]. cbn [fst snd] in *.
  assert (Hnz : ¬ (total == 0)%Q).
  { intros E. rewrite E in Htotal. discriminate Htotal. }
  destruct (Qeq_bool total 0) eqn:E; [apply Qeq_bool_iff in E; contradiction|].
  assert (Hlen : length normalised = length config_prob) by apply length_map.
  split; [|split; [exact Hlen|]].
  - destruct (last_cumsum_from normalised 0%Q) as (c & Hc & Hsum).
    { unfold normalised. destruct config_prob; [contradiction|discriminate]. }
    assert (Hone : (c == 1)%Q).
    { rewrite Hsum. unfold normalised. rewrite Qsum_scaled. fold total. field. exact Hnz. }
    unfold searchsorted_left, cumsum.
    rewrite <- Hlen, <- (length_cumsum_from normalised 0%Q).
    apply (length_filter_lt _ _ c).
    + rewrite last_lookup in Hc. apply list_elem_of_lookup. eauto.
    + assert (Hle : Qle_bool rv c = true).
      { apply Qle_bool_iff. rewrite Hone. apply Qlt_le_weak. exact Hrv. }
      rewrite Hle. discriminate.
  - unfold normalised. clearbody total. clear -Hpos Htotal.
    induction Hpos as [|p ps Hp _ IH]; cbn [map]; constructor; [|exact IH].
    apply Qlt_shift_div_l; [exact Htotal|]. rewrite Qmult_0_l. exact Hp.
Qed.

(** With positive weights and a uniform variate below 1, the index drawn
    in one pass addresses an entry of the pool: the deletion that follows
    cannot fall outside the list. *)
Theorem draw_index_in_range (config_prob : list Q) (g : rng) :
  config_prob ≠ [] →
  Forall (fun p => (0 < p)%Q) config_prob →
  (fst (uniform g) < 1)%Q →
  (snd (fst (draw uniform config_prob g)) < length config_prob)%nat.
Proof. intros Hne Hpos Hrv. apply (draw_in_range config_prob g Hne Hpos Hrv). Qed.

(** With positive weights, one weight and one value per pool entry, and
    uniform variates below 1, the sampling loop completes any number of
    passes up to the pool size: no draw falls outside the pool. *)
Lemma draw_loop_completes (passes : nat) :
  ∀ (config_prob : list Q) (fatoms : list item) (values : list Q)
    (selected : list item) (g : rng),
    (∀ g0, (fst (uniform g0) < 1)%Q) →
    Forall (fun p => (0 < p)%Q) config_prob →
    length config_prob = length fatoms →
    length values = length fatoms →
    (passes ≤ length fatoms)%nat →
    ∃ remaining selected' g',
      draw_loop uniform passes config_prob fatoms values selected g
      = (remaining, inr (selected', g')).
Proof.
  induction passes as [|passes IH]; intros config_prob fatoms values selected g
    Huni Hpos Hlenp Hlenv Hpasses; cbn [draw_loop]; [eauto|].
  assert (Hne : config_prob ≠ []).
  { destruct config_prob; [|discriminate]. cbn in Hlenp. lia. }
  destruct (draw_in_range config_prob g Hne Hpos (Huni g)) as (Hi & Hlen & Hpos').
  destruct (draw uniform config_prob g) as [[normalised config_i] g1].
  cbn [fst snd] in *.
  destruct (lookup_lt_is_Some_2 fatoms config_i) as [chosen Hchosen]; [lia|].
  rewrite Hchosen. unfold np_delete.
  destruct (decide (config_i < length normalised)%nat); [|lia].
  destruct (decide (config_i < length values)%nat); [|lia].
  cbn [ret]. apply IH.
  - exact Huni.
  - apply Forall_delete. exact Hpos'.
  - rewrite !length_delete by (try apply lookup_lt_is_Some_2; lia || eauto). lia.
  - rewrite !length_delete by (try apply lookup_lt_is_Some_2; lia || eauto). lia.
  - rewrite length_delete by eauto. lia.
Qed.

End DrawFacts.

(** ** Further properties: the flat-histogram weights *)

Section WeightFacts.

Import Selection Histogram.

Open Scope Q_scope.

Lemma Qmin_list_le (v : Q) (vs : list Q) :
  Qmin_list v vs <= v ∧ Forall (fun y => Qmin_list v vs <= y) vs.
Proof.
  induction vs as [|a vs [IHv IH]]; unfold Qmin_list in *; cbn [foldr].
  - split; [apply Qle_refl|constructor].
  - destruct (Qle_bool a _) eqn:E.
    + apply Qle_bool_iff in E. split; [eapply Qle_trans; eassumption|].
      constructor; [apply Qle_refl|].
      eapply Forall_impl; [exact IH|]. intros y Hy. cbn in Hy. eapply Qle_trans; eassumption.
    + assert (Hlt : foldr (fun a b => if Qle_bool a b then a else b) v vs <= a).
      { destruct (Qlt_le_dec a (foldr (fun a b => if Qle_bool a b then a else b) v vs))
          as [H|H]; [|exact H].
        apply Qlt_le_weak in H. apply Qle_bool_iff in H. congruence. }
      split; [exact IHv|]. constructor; [exact Hlt|exact IH].
Qed.

Lemma Qmax_list_ge (v : Q) (vs : list Q) :
  v <= Qmax_list v vs ∧ Forall (fun y => y <= Qmax_list v vs) vs.
Proof.
  induction vs as [|a vs [IHv IH]]; unfold Qmax_list in *; cbn [foldr].
  - split; [apply Qle_refl|constructor].
  - destruct (Qle_bool _ a) eqn:E.
    + apply Qle_bool_iff in E. split; [eapply Qle_trans; eassumption|].
      constructor; [apply Qle_refl|].
      eapply Forall_impl; [exact IH|]. intros y Hy. cbn in Hy. eapply Qle_trans; eassumption.
    + assert (Hlt : a <= foldr (fun a b => if Qle_bool b a then a else b) v vs).
      { destruct (Qlt_le_dec (foldr (fun a b => if Qle_bool b a then a else b) v vs) a)
          as [H|H]; [|exact H].
        apply Qlt_le_weak in H. apply Qle_bool_iff in H. congruence. }
      split; [exact IHv|]. constructor; [exact Hlt|exact IH].
Qed.

(** The range of the histogram is not empty and holds every value. *)
Lemma histogram_range_spec (v : Q) (vs : list Q) :
  fst (histogram_range (v :: vs)) < snd (histogram_range (v :: vs))
  ∧ Forall (fun y => fst (histogram_range (v :: vs)) <= y
                     ∧ y <= snd (histogram_range (v :: vs))) (v :: vs).
Proof.
  destruct (Qmin_list_le v vs) as [Hminv Hmin].
  destruct (Qmax_list_ge v vs) as [Hmaxv Hmax].
  assert (Hall : Forall (fun y => Qmin_list v vs <= y ∧ y <= Qmax_list v vs) (v :: vs)).
  { constructor; [split; assumption|].
    apply Forall_forall. intros y Hy. split.
    - exact (proj1 (Forall_forall _ _) Hmin y Hy).
    - exact (proj1 (Forall_forall _ _) Hmax y Hy). }
  unfold histogram_range. destruct (Qeq_bool _ _) eqn:E; cbn [fst snd].
  - apply Qeq_bool_iff in E. split; [lra|].
    eapply Forall_impl; [exact Hall|]. intros y [H1 H2]. cbn. lra.
  - split; [|exact Hall].
    assert (Hle : Qmin_list v vs <= Qmax_list v vs) by (eapply Qle_trans; eassumption).
    destruct (Qlt_le_dec (Qmin_list v vs) (Qmax_list v vs)) as [H|H]; [exact H|].
    exfalso. assert (Heq : Qmin_list v vs == Qmax_list v vs) by (apply Qle_antisym; assumption).
    apply Qeq_bool_iff in Heq. congruence.
Qed.

Lemma edge_le_iff (first_edge last_edge H : Q) (k : nat) :
  first_edge < last_edge →
  first_edge + inject_Z (Z.of_nat k) * ((last_edge - first_edge) / 10) <= H
  ↔ (Z.of_nat k ≤ Qfloor (bin_position first_edge last_edge H))%Z.
Proof.
  intros Hlt. unfold bin_position.
  set (d := last_edge - first_edge). assert (Hd : 0 < d) by (unfold d; lra).
  assert (Hdn : ¬ d == 0) by (intros E; rewrite E in Hd; discriminate Hd).
  set (x := (H - first_edge) * 10 / d).
  assert (Hx : x * d == (H - first_edge) * 10) by (unfold x; field; exact Hdn).
  set (kq := inject_Z (Z.of_nat k)).
  assert (Hk : kq * (d / 10) == kq * d * (1 # 10)) by field.
  assert (Hcore : first_edge + kq * (d / 10) <= H ↔ kq <= x).
  { rewrite Hk. rewrite <- (Qmult_le_r kq x d Hd). rewrite Hx.
    set (kd := kq * d). clearbody kd. clear. split; intros; lra. }
  rewrite Hcore. split.
  - intros Hle. apply Qfloor_resp_le in Hle. unfold kq in Hle. rewrite Qfloor_Z in Hle.
    exact Hle.
  - intros Hle. eapply Qle_trans; [|apply Qfloor_le]. unfold kq. rewrite <- Zle_Qle. exact Hle.
Qed.

Lemma count_edges_below (first_edge last_edge H : Q) (n : nat) :
  first_edge < last_edge →
  (0 ≤ Qfloor (bin_position first_edge last_edge H))%Z →
  length (filter (fun e => Qle_bool e H = true)
            (map (fun k : nat =>
                    first_edge + inject_Z (Z.of_nat k) * ((last_edge - first_edge) / 10))
                 (seq 1 n)))
  = Nat.min n (Z.to_nat (Qfloor (bin_position first_edge last_edge H))).
Proof.
  intros Hlt Hf. induction n as [|n IH]; [reflexivity|].
  rewrite seq_S, map_app, filter_app, length_app, IH. cbn [map].
  rewrite filter_singleton; [|exact []].
  pose proof (edge_le_iff first_edge last_edge H (1 + n) Hlt) as Hiff.
  case_decide as Hle.
  - apply Qle_bool_iff in Hle. apply Hiff in Hle. cbn [length]. lia.
  - assert (Hgt : ¬ (Z.of_nat (1 + n) ≤ Qfloor (bin_position first_edge last_edge H))%Z).
    { intros Hc. apply Hle. apply Qle_bool_iff. apply Hiff. exact Hc. }
    cbn [length]. lia.
Qed.

(** Every value is looked up in the bin it was counted in, so the
    occupancy it finds is at least 1. *)
Lemma occupancy_positive (v : Q) (vs : list Q) (H : Q) :
  H ∈ v :: vs →
  let values := v :: vs in
  let inner_edges := drop 1 (bin_edges values) in
  let bin_i := searchsorted_right inner_edges H in
  let bin_i := if (bin_i =? length inner_edges)%nat then (bin_i - 1)%nat else bin_i in
  (0 < nth bin_i (bin_counts values) 0%Z)%Z.
Proof.
  intros HH values.
  destruct (histogram_range_spec v vs) as [Hlt Hall]. fold values in Hlt, Hall.
  pose proof (proj1 (Forall_forall _ _) Hall H HH) as [Hlo Hhi].
  assert (Hedges : drop 1 (bin_edges values)
                   = map (fun k : nat =>
                            fst (histogram_range values)
                            + inject_Z (Z.of_nat k)
                              * ((snd (histogram_range values)
                                  - fst (histogram_range values)) / 10))
                         (seq 1 10)).
  { unfold bin_edges. destruct (histogram_range values) as [fe le]. reflexivity. }
  assert (Hbin : bin_of values H
                 = Z.min 9 (Qfloor (bin_position (fst (histogram_range values))
                                      (snd (histogram_range values)) H))).
  { unfold bin_of, bin_position. destruct (histogram_range values) as [fe le]. reflexivity. }
  set (fe := fst (histogram_range values)) in *.
  set (le := snd (histogram_range values)) in *.
  assert (Hd : 0 < le - fe) by lra.
  assert (Hx0 : 0 <= bin_position fe le H).
  { unfold bin_position. apply Qle_shift_div_l; [exact Hd|]. lra. }
  assert (Hx10 : bin_position fe le H <= 10).
  { unfold bin_position. apply Qle_shift_div_r; [exact Hd|]. lra. }
  assert (Hf0 : (0 ≤ Qfloor (bin_position fe le H))%Z).
  { pose proof (Qfloor_resp_le _ _ Hx0) as Hc. exact Hc. }
  assert (Hf10 : (Qfloor (bin_position fe le H) ≤ 10)%Z).
  { pose proof (Qfloor_resp_le _ _ Hx10) as Hc. exact Hc. }
  cbv zeta. rewrite Hedges. unfold searchsorted_right.
  rewrite (count_edges_below fe le H 10 Hlt Hf0), length_map, length_seq.
  set (f := Qfloor (bin_position fe le H)) in *.
  set (bin_i := if (Nat.min 10 (Z.to_nat f) =? 10)%nat
                then (Nat.min 10 (Z.to_nat f) - 1)%nat else Nat.min 10 (Z.to_nat f)).
  assert (Hbi : (bin_i < 10)%nat ∧ Z.of_nat bin_i = Z.min 9 f).
  { unfold bin_i. destruct (Nat.eqb_spec (Nat.min 10 (Z.to_nat f)) 10); lia. }
  destruct Hbi as [Hbi10 Hbif].
  unfold bin_counts.
  assert (Hlook : map (fun b : nat =>
                         Z.of_nat (length (filter (fun x => bin_of values x = Z.of_nat b) values)))
                      (seq 0 10) !! bin_i
                  = Some (Z.of_nat (length (filter (fun x => bin_of values x = Z.of_nat bin_i)
                                              values)))).
  { change (map ?F (seq 0 10)) with (F <$> seq 0 10).
    rewrite list_lookup_fmap, lookup_seq_lt by exact Hbi10. reflexivity. }
  rewrite (nth_lookup_Some _ _ _ _ Hlook).
  assert (Hin : H ∈ filter (fun x => bin_of values x = Z.of_nat bin_i) values).
  { apply list_elem_of_filter. split; [|exact HH]. rewrite Hbin, Hbif. reflexivity. }
  destruct (filter _ values); [inversion Hin|]. cbn [length]. lia.
Qed.

Lemma config_weights_spec (np_exp : Q → Q) (kT : Q) (values config_prob : list Q) :
  (∀ x, 0 < np_exp x) →
  config_weights np_exp kT values = inr config_prob →
  length config_prob = length values ∧ Forall (fun p => 0 < p) config_prob.
Proof.
  intros Hexp Hrun. unfold config_weights in Hrun.
  destruct values as [|v vs]; [discriminate|]. unfold ret in Hrun.
  apply (inj inr) in Hrun. subst config_prob.
  split; [apply length_map|].
  apply Forall_forall. intros p Hp. apply list_elem_of_In, in_map_iff in Hp as (H & <- & HH).
  apply list_elem_of_In in HH.
  pose proof (occupancy_positive v vs H HH) as Hocc. cbv zeta in Hocc.
  set (count := nth _ (bin_counts (v :: vs)) 0%Z) in *.
  destruct (Z.ltb_spec 0 count) as [_|Hc]; [|lia].
  assert (Hp : 0 < 1 / inject_Z count).
  { apply Qlt_shift_div_l; [|rewrite Qmult_0_l; reflexivity].
    change 0 with (inject_Z 0). rewrite <- Zlt_Qlt. exact Hocc. }
  destruct (Qle_bool kT 0); [exact Hp|].
  apply Qmult_lt_0_compat; [exact Hp|apply Hexp].
Qed.

(** For a positive exponential, every configuration gets a positive
    weight (there is one weight per value): no configuration of the pool
    is excluded from the draw, with or without the Boltzmann factor. *)
Theorem config_weights_positive (np_exp : Q → Q) (kT : Q) (values config_prob : list Q) :
  (∀ x, 0 < np_exp x) →
  config_weights np_exp kT values = inr config_prob →
  length config_prob = length values ∧ Forall (fun p => 0 < p) config_prob.
Proof. apply config_weights_spec. Qed.

End WeightFacts.

(** ** Further properties: when the samplers are sure to return *)

Section SamplersReturn.

Import Selection.

Open Scope Z_scope.

Context (GPa : Q) (np_exp : Q → Q).
Context {rng : Type} (uniform : rng → Q * rng).
Context (choice : rng → nat → Z → list Q → res (list nat * rng)).
Context (leverage_scores : option string → Q → Z → list Atoms → res (list Q)).
Context (hull_distances :
  string → string → gmap Z Q → option (list string) → list item → res (list Q)).

Lemma enthalpies_of_length (isol_es : option (gmap Z Q)) (P : option (list Q))
    (fatoms : list item) (enthalpies : list Q) :
  enthalpies_of GPa isol_es P fatoms = inr enthalpies →
  length enthalpies = length fatoms.
Proof.
  unfold enthalpies_of. intros Hrun.
  destruct (pressures P fatoms) as [e|ps]; [discriminate|]. cbn [bind] in Hrun.
  destruct (traverse as_atoms fatoms) as [e|ats] eqn:Hats; [discriminate|].
  cbn [bind] in Hrun.
  destruct (traverse (ener_relative_of isol_es) ats) as [e|ers]; [discriminate|].
  cbn [bind] in Hrun.
  apply traverse_as_atoms in Hats. subst fatoms.
  destruct (enthalpy_loop_lookup _ _ _ _ _ _ Hrun) as [Hlen _].
  rewrite length_map. exact Hlen.
Qed.

(** The tail shared by the two samplers: positive weights, a draw count
    within the pool and no CUR stage give a selection of that size. *)
Lemma sampling_tail_returns (values : list Q) (fatoms : list item) (kT : Q)
    (select_num cur_num : Z) (descriptor : option string) (kernel_exp : Q) (g : rng) :
  (∀ x, (0 < np_exp x)%Q) →
  (∀ g0, (fst (uniform g0) < 1)%Q) →
  fatoms ≠ [] →
  length values = length fatoms →
  select_num ≤ Z.of_nat (length fatoms) →
  select_num ≤ cur_num →
  ∃ config_prob remaining selected g',
    config_weights np_exp kT values = inr config_prob
    ∧ draw_loop uniform (Z.to_nat select_num) config_prob fatoms values [] g
      = (remaining, inr (selected, g'))
    ∧ cur_stage choice leverage_scores selected descriptor kernel_exp cur_num select_num g'
      = inr (Some selected, g')
    ∧ length selected = Z.to_nat select_num.
Proof.
  intros Hexp Huni Hne Hlen Hsel Hcur.
  destruct (config_weights np_exp kT values) as [e|config_prob] eqn:Hprob.
  { destruct values; [destruct fatoms; [contradiction|discriminate]|discriminate]. }
  destruct (config_weights_spec _ _ _ _ Hexp Hprob) as [Hlenp Hpos].
  destruct (draw_loop_completes uniform (Z.to_nat select_num) config_prob fatoms values [] g
              Huni Hpos) as (remaining & selected & g' & Hloop); [lia|exact Hlen|lia|].
  exists config_prob, remaining, selected, g'.
  split; [reflexivity|]. split; [exact Hloop|].
  apply draw_loop_returns in Hloop as (drawn & -> & Hdrawn & _).
  split; [|exact Hdrawn].
  unfold cur_stage. destruct (Z.ltb_spec cur_num select_num); [lia|reflexivity].
Qed.

(** [boltzhist_CUR] is sure to return when the enthalpies can be computed
    for a non-empty pool, the exponential is positive, the uniform
    variates lie below 1, no more configurations are to be drawn than the
    pool holds, and [cur_num] asks for no pruning: it then returns exactly
    [select_num] configurations. *)
Theorem boltzhist_CUR_returns_selection
    (first : item) (rest : list item) (isol_es : option (gmap Z Q))
    (bolt_frac : Q) (bolt_max_num cur_num : Z) (kernel_exp kT : Q)
    (energy_label : string) (P : option (list Q)) (descriptor : option string)
    (g : rng) (enthalpies : list Q) :
  (∀ x, (0 < np_exp x)%Q) →
  (∀ g0, (fst (uniform g0) < 1)%Q) →
  working_pool (first :: rest) first ≠ [] →
  enthalpies_of GPa isol_es P (working_pool (first :: rest) first) = inr enthalpies →
  select_num_of bolt_frac bolt_max_num (working_pool (first :: rest) first)
  ≤ Z.of_nat (length (working_pool (first :: rest) first)) →
  select_num_of bolt_frac bolt_max_num (working_pool (first :: rest) first) ≤ cur_num →
  ∃ out g',
    snd (boltzhist_CUR GPa np_exp uniform choice leverage_scores (first :: rest) isol_es
           bolt_frac bolt_max_num cur_num kernel_exp kT energy_label P descriptor g)
    = inr (Some out, g')
    ∧ length out
      = Z.to_nat (select_num_of bolt_frac bolt_max_num (working_pool (first :: rest) first)).
Proof.
  intros Hexp Huni Hne Henth Hsel Hcur. unfold boltzhist_CUR.
  set (fatoms := working_pool (first :: rest) first) in *.
  destruct (sampling_tail_returns enthalpies fatoms kT
              (select_num_of bolt_frac bolt_max_num fatoms) cur_num descriptor kernel_exp g
              Hexp Huni Hne (enthalpies_of_length _ _ _ _ Henth) Hsel Hcur)
    as (config_prob & remaining & selected & g' & Hprob & Hloop & Hstage & Hlen).
  rewrite Henth. cbn [bind]. rewrite Hprob. cbn [bind ret]. rewrite Hloop. cbn [snd bind].
  exists selected, g'. split; [exact Hstage|exact Hlen].
Qed.

(** The same for [convexhull_CUR] on a flat list, when the hull distances
    come back one per entry. *)
Theorem convexhull_CUR_returns_selection
    (first : item) (rest : list item) (bolt_frac : Q) (bolt_max_num cur_num : Z)
    (kernel_exp kT : Q) (energy_label : string) (descriptor : option string)
    (isol : gmap Z Q) (element_order : option (list string)) (scheme : string)
    (g : rng) (des : list Q) :
  (∀ x, (0 < np_exp x)%Q) →
  (∀ g0, (fst (uniform g0) < 1)%Q) →
  is_list first = false →
  scheme = "linear-hull" ∨ scheme = "volume-stoichiometry" →
  hull_distances scheme energy_label isol element_order (first :: rest) = inr des →
  length des = length (first :: rest) →
  select_num_of bolt_frac bolt_max_num (first :: rest) ≤ Z.of_nat (length (first :: rest)) →
  select_num_of bolt_frac bolt_max_num (first :: rest) ≤ cur_num →
  ∃ out g',
    snd (convexhull_CUR np_exp uniform choice leverage_scores hull_distances (first :: rest)
           bolt_frac bolt_max_num cur_num kernel_exp kT energy_label descriptor (Some isol)
           element_order scheme g)
    = inr (Some out, g')
    ∧ length out = Z.to_nat (select_num_of bolt_frac bolt_max_num (first :: rest)).
Proof.
  intros Hexp Huni Hflat Hscheme Hdes Hlen Hsel Hcur. unfold convexhull_CUR, working_pool.
  rewrite Hflat.
  destruct (sampling_tail_returns des (first :: rest) kT
              (select_num_of bolt_frac bolt_max_num (first :: rest)) cur_num descriptor
              kernel_exp g Hexp Huni ltac:(discriminate) Hlen Hsel Hcur)
    as (config_prob & remaining & selected & g' & Hprob & Hloop & Hstage & Hlens).
  rewrite (bool_decide_eq_true_2 _ Hscheme). rewrite Hdes. cbn [bind].
  rewrite Hprob. cbn [bind ret]. rewrite Hloop. cbn [snd bind].
  exists selected, g'. split; [exact Hstage|exact Hlens].
Qed.

End SamplersReturn.

Lemma config_weights_positive_witness :
  length [(1 # 2)%Q; 1%Q; (1 # 2)%Q] = length [(2 # 1)%Q; (1 # 1)%Q; (2 # 1)%Q]
  ∧ Forall (fun p => (0 < p)%Q) [(1 # 2)%Q; 1%Q; (1 # 2)%Q].
Proof.
  apply (config_weights_positive FurtherExamples.exp_positive 0
           [(2 # 1)%Q; (1 # 1)%Q; (2 # 1)%Q] [(1 # 2)%Q; 1%Q; (1 # 2)%Q]).
  - intros x. reflexivity.
  - vm_compute. reflexivity.
Defined.

Lemma draw_index_in_range_witness :
  (snd (fst (Selection.draw FurtherExamples.always_quarter [(1 # 2)%Q; 1%Q; (1 # 2)%Q] tt))
   < length [(1 # 2)%Q; 1%Q; (1 # 2)%Q])%nat.
Proof.
  apply (draw_index_in_range FurtherExamples.always_quarter [(1 # 2)%Q; 1%Q; (1 # 2)%Q] tt).
  - discriminate.
  - repeat (constructor; [reflexivity|]). constructor.
  - reflexivity.
Defined.

Lemma boltzhist_CUR_returns_selection_witness :
  ∃ out g',
    snd (Selection.boltzhist_CUR SelectionExamples.GPa FurtherExamples.exp_positive
           FurtherExamples.always_quarter FurtherExamples.choice_first
           SelectionExamples.leverage_scores
           [Selection.Config SelectionExamples.si2; Selection.Config SelectionExamples.si1]
           (Some SelectionExamples.isol_es) (1 # 2) 3000 100 4 0 "energy" None None tt)
    = inr (Some out, g')
    ∧ length out
      = Z.to_nat (Selection.select_num_of (1 # 2) 3000
          (Selection.working_pool
             [Selection.Config SelectionExamples.si2; Selection.Config SelectionExamples.si1]
             (Selection.Config SelectionExamples.si2))).
Proof.
  apply (boltzhist_CUR_returns_selection SelectionExamples.GPa FurtherExamples.exp_positive
           FurtherExamples.always_quarter FurtherExamples.choice_first
           SelectionExamples.leverage_scores
           (Selection.Config SelectionExamples.si2) [Selection.Config SelectionExamples.si1]
           (Some SelectionExamples.isol_es) (1 # 2) 3000 100 4 0 "energy" None None tt
           [(4000000000000000000 # 4000000000000000000)%Q;
            (124830182517665160 # 1000000000000000000)%Q]).
  - intros x. reflexivity.
  - intros g0. reflexivity.
  - discriminate.
  - vm_compute. reflexivity.
  - vm_compute. discriminate.
  - vm_compute. discriminate.
Defined.

Lemma convexhull_CUR_returns_selection_witness :
  ∃ out g',
    snd (Selection.convexhull_CUR FurtherExamples.exp_positive
           FurtherExamples.always_quarter FurtherExamples.choice_first
           SelectionExamples.leverage_scores SelectionExamples.hull_distances
           [Selection.Config SelectionExamples.si2; Selection.Config SelectionExamples.si1]
           (1 # 2) 3000 100 4 0 "energy" None (Some SelectionExamples.isol_es) None
           "linear-hull" tt)
    = inr (Some out, g')
    ∧ length out
      = Z.to_nat (Selection.select_num_of (1 # 2) 3000
          [Selection.Config SelectionExamples.si2; Selection.Config SelectionExamples.si1]).
Proof.
  apply (convexhull_CUR_returns_selection FurtherExamples.exp_positive
           FurtherExamples.always_quarter FurtherExamples.choice_first
           SelectionExamples.leverage_scores SelectionExamples.hull_distances
           (Selection.Config SelectionExamples.si2) [Selection.Config SelectionExamples.si1]
           (1 # 2) 3000 100 4 0 "energy" None SelectionExamples.isol_es None "linear-hull" tt
           [0%Q; 0%Q]).
  - intros x. reflexivity.
  - intros g0. reflexivity.
  - reflexivity.
  - left. reflexivity.
  - reflexivity.
  - reflexivity.
  - vm_compute. discriminate.
  - vm_compute. discriminate.
Defined.
